(** * Link validator of the galaxy table: a shallow embedding of
      [scripts/validate-links.js] and the properties of its components.

    The script builds one wiki URL per galaxy, probes it over HTTP
    (HEAD first, GET as a fallback, redirects followed up to a limit),
    and exits with status 1 when a link is dead.  Requests are spaced
    by a start-time throttle and bounded by a concurrency limiter.

    Conventions of the embedding:
    - JavaScript values that reach the script from the JSON dataset are
      [JsValue]s; text is [string] (a sequence of characters, of which
      only the space character is ever inspected);
    - numbers that the script only counts or compares are [Z];
    - objects built with a spread are finite maps from property names
      to values ([gmap string JsValue]);
    - the network and the clock are explicit: a probe oracle answers the
      k-th request of a resolution, the event loop is a list of events. *)

From Stdlib Require Import ZArith List Lia Ascii String.
From stdpp Require Import base strings gmap pretty.
From Equations Require Import Equations.
Import ListNotations.
Open Scope Z_scope.

(** ** JavaScript values and exceptions *)

Inductive JsValue : Type :=
| JUndefined
| JNull
| JBool (b : bool)
| JNum (n : Z)
| JStr (s : string)
| JObj.

Inductive Exception : Type :=
| TypeError
| ReadError
| SyntaxError.

(** The completion of a call that may throw. *)
Inductive Completion (A : Type) : Type :=
| Normal (a : A)
| Throw (e : Exception).
Arguments Normal {A} a.
Arguments Throw {A} e.

(** ToBoolean. *)
Definition truthy (v : JsValue) : bool :=
  match v with
  | JUndefined | JNull => false
  | JBool b => b
  | JNum n => negb (n =? 0)
  | JStr s => negb (String.eqb s EmptyString)
  | JObj => true
  end.

(** [a || b]. *)
Definition js_or (a b : JsValue) : JsValue :=
  if truthy a then a else b.

(** ** Text primitives used by the URL builder *)

(** [s.split(sep)] for a one-character separator: the segments between
    the occurrences of [sep]; the empty text has one (empty) segment. *)
Fixpoint split (sep : ascii) (s : string) : list string :=
  match s with
  | EmptyString => [EmptyString]
  | String c rest =>
      if Ascii.eqb c sep then EmptyString :: split sep rest
      else match split sep rest with
           | seg :: segs => String c seg :: segs
           | [] => [String c EmptyString]
           end
  end.

(** [l.join(sep)]. *)
Fixpoint join (sep : string) (l : list string) : string :=
  match l with
  | [] => EmptyString
  | [x] => x
  | x :: rest => x +:+ sep +:+ join sep rest
  end.

(** ** URL builder *)

Definition BASE : string := "https://nomanssky.fandom.com/wiki/".

(** The builder on text: [BASE + name.split(' ').join('_')]. *)
Definition build (name : string) : string :=
  BASE +:+ join "_" (split " " name).

(** [buildUrlFromName(name)]: [(name || '')] selects the text; calling
    [split] on a value that is not text raises a TypeError. *)
Definition buildUrlFromName (name : JsValue) : Completion string :=
  match js_or name (JStr EmptyString) with
  | JStr s => Normal (build s)
  | _ => Throw TypeError
  end.

(** The builder as the specification words it: every space character
    becomes an underscore, every other character is kept. *)
Definition spaceToUnderscore (c : ascii) : ascii :=
  if Ascii.eqb c " " then "_"%char else c.

Fixpoint replaceSpaces (s : string) : string :=
  match s with
  | EmptyString => EmptyString
  | String c rest => String (spaceToUnderscore c) (replaceSpaces rest)
  end.

Definition build_spec (name : string) : string :=
  BASE +:+ replaceSpaces name.

Fixpoint hasSpace (s : string) : bool :=
  match s with
  | EmptyString => false
  | String c rest => Ascii.eqb c " " || hasSpace rest
  end.

(** ** Single-hop prober: the interface of [requestOnce] *)

Inductive Method : Type := HEAD | GET.

Definition isHEAD (m : Method) : bool :=
  match m with HEAD => true | GET => false end.

Record Request : Type := mkRequest { rq_method : Method; rq_url : string }.

(** What [requestOnce] resolves with: [{ok: true, statusCode, headers}],
    of which only [headers.location] is read, or [{ok: false, error}],
    of which only [error.message] is read. *)
Inductive ProbeOutcome : Type :=
| Response (statusCode : Z) (location : option string)
| Failed (message : option string).

(** The network seen by one resolution: the answer to its k-th request. *)
Definition Oracle : Type := nat -> Request -> ProbeOutcome.

(** [new URL(loc, base).toString()], [None] when the constructor throws.
    URL parsing belongs to the platform, so the resolver is a parameter
    of the model. *)
Definition Resolver : Type := string -> string -> option string.

(** ** Redirect/method resolver: [checkUrl] *)

(** The object returned by [checkUrl]; [reason] is absent on success. *)
Record CheckResult : Type := mkResult {
  r_url : string;
  r_valid : bool;
  r_reason : option string
}.

(** The loop variables [method], [currentUrl], [redirects]. *)
Record Probing : Type := mkProbing {
  method : Method;
  currentUrl : string;
  redirects : Z
}.

(** One pass through the loop body either returns or continues. *)
Inductive Step : Type :=
| Done (r : CheckResult)
| Continue (st : Probing).

(** [last.error?.message || 'request failed']. *)
Definition errorMessage (message : option string) : string :=
  match message with
  | Some m => if String.eqb m EmptyString then "request failed" else m
  | None => "request failed"
  end.

(** [last.headers && last.headers.location] as a condition: the header
    counts when it is a non-empty text. *)
Definition locationOf (location : option string) : option string :=
  match location with
  | Some l => if String.eqb l EmptyString then None else Some l
  | None => None
  end.

(** The redirect test [status >= 300 && status < 400 && last.headers &&
    last.headers.location], with the location it selects. *)
Definition redirectLocation (status : Z) (location : option string)
  : option string :=
  if (300 <=? status) && (status <? 400) then locationOf location else None.

(** [`HTTP ${status}`]. *)
Definition httpReason (status : Z) : string := "HTTP " +:+ pretty status.

Section Resolution.

Variable resolveUrl : Resolver.
Variable maxRedirects : Z.

(** The loop body of [checkUrl], after [last = await requestOnce(...)]. *)
Definition step (st : Probing) (last : ProbeOutcome) : Step :=
  match last with
  | Failed message =>
      Done (mkResult (currentUrl st) false (Some (errorMessage message)))
  | Response status location =>
      if (200 <=? status) && (status <? 300)
      then Done (mkResult (currentUrl st) true None)
      else
        if ((status =? 405) || (status =? 403)) && isHEAD (method st)
        then Continue (mkProbing GET (currentUrl st) (redirects st))
        else
          match redirectLocation status location with
          | Some loc =>
              match resolveUrl loc (currentUrl st) with
              | None =>
                  Done (mkResult (currentUrl st) false
                          (Some "invalid redirect location"))
              | Some next =>
                  Continue (mkProbing HEAD next (redirects st + 1))
              end
          | None =>
              Done (mkResult (currentUrl st) false (Some (httpReason status)))
          end
  end.

(** What a call of [checkUrl] does: the object it returns, the final
    value of [redirects], and the requests it issued, in order. *)
Record Resolution : Type := mkResolution {
  result : CheckResult;
  redirectsTaken : Z;
  requests : list Request
}.

Definition request (st : Probing) : Request :=
  mkRequest (method st) (currentUrl st).

Definition sent (rq : Request) (run : Resolution) : Resolution :=
  mkResolution (result run) (redirectsTaken run) (rq :: requests run).

(** The loop ends: a HEAD pass is followed by a GET pass on the same hop
    or by the next hop, and there are at most [maxRedirects + 1] hops. *)
Definition passesLeft (st : Probing) : nat :=
  (2 * Z.to_nat (maxRedirects + 1 - redirects st)
   + (if isHEAD (method st) then 1 else 0))%nat.

Definition inspect {A : Type} (x : A) : {y : A | x = y} := exist _ x eq_refl.

(** [while (redirects <= MAX_REDIRECTS) { ... }] followed by the final
    [return], for [MAX_REDIRECTS = maxRedirects]; [k] counts the requests
    issued so far. *)
Equations? checkUrl_loop (oracle : Oracle) (st : Probing) (k : nat)
  : Resolution by wf (passesLeft st) lt :=
  checkUrl_loop oracle st k with inspect (redirects st <=? maxRedirects) := {
    | exist _ false _ =>
        mkResolution
          (mkResult (currentUrl st) false (Some "too many redirects"))
          (redirects st) []
    | exist _ true Hle with inspect (step st (oracle k (request st))) := {
        | exist _ (Done r) _ =>
            mkResolution r (redirects st) [request st]
        | exist _ (Continue st') Hstep =>
            sent (request st) (checkUrl_loop oracle st' (S k)) } }.
Proof.
  apply Z.leb_le in Hle. unfold passesLeft.
  unfold step in Hstep.
  destruct (oracle k (request st)) as [status location | message];
    [ | discriminate ].
  destruct ((200 <=? status) && (status <? 300)); [ discriminate | ].
  destruct (((status =? 405) || (status =? 403)) && isHEAD (method st)) eqn:Hfb.
  - injection Hstep as <-. simpl.
    apply andb_prop in Hfb as [_ ->]. lia.
  - destruct (redirectLocation status location); [ | discriminate ].
    destruct (resolveUrl s (currentUrl st)); [ | discriminate ].
    injection Hstep as <-. simpl.
    replace (maxRedirects + 1 - redirects st)
      with (Z.succ (maxRedirects + 1 - (redirects st + 1))) by lia.
    rewrite Z2Nat.inj_succ by lia.
    destruct (isHEAD (method st)); lia.
Qed.

(** [checkUrl(url)]. *)
Definition checkUrl_run (oracle : Oracle) (url : string) : Resolution :=
  checkUrl_loop oracle (mkProbing HEAD url 0) 0.

Definition checkUrl (oracle : Oracle) (url : string) : CheckResult :=
  result (checkUrl_run oracle url).

End Resolution.

(** ** Concurrency limiter: [pLimit]

    The closure state is [activeCount] and [queue]; a task is named by
    its submission number.  Three fields are bookkeeping for the
    statements: the tasks whose promise is pending ([running]), the
    tasks in the order in which they were started ([started]), and how
    the promise returned to each caller was settled ([settled]).  A
    task is a function that returns a promise when it is called, as the
    tasks of [main] do; the promise settles in a later event. *)

Module pLimit.

Record State : Type := mkState {
  activeCount : Z;
  queue : list nat;
  running : list nat;
  started : list nat;
  settled : list (nat * bool);
  submitted : nat
}.

Definition init : State := mkState 0 [] [] [] [] 0.

Inductive Event : Type :=
| Submit                 (* the limiter is called with a new task *)
| Fulfil (task : nat)    (* the promise of [fn()] is fulfilled *)
| Reject (task : nat).   (* the promise of [fn()] is rejected *)

Definition isRunning (task : nat) (s : State) : bool :=
  existsb (Nat.eqb task) (running s).

Definition without (task : nat) (l : list nat) : list nat :=
  List.filter (fun t => negb (Nat.eqb task t)) l.

Section WithConcurrency.

Variable concurrency : Z.

(** [next()]: start the oldest queued task if a slot is free. *)
Definition next (s : State) : State :=
  match queue s with
  | [] => s
  | task :: rest =>
      if activeCount s >=? concurrency then s
      else mkState (activeCount s + 1) rest
             (running s ++ [task]) (started s ++ [task])
             (settled s) (submitted s)
  end.

(** The returned function: [queue.push({fn, resolve, reject}); next()]. *)
Definition limit (s : State) : State :=
  next (mkState (activeCount s) (queue s ++ [submitted s])
          (running s) (started s) (settled s) (S (submitted s))).

(** [.then((v) => { activeCount--; resolve(v); next(); })]. *)
Definition onFulfilled (task : nat) (s : State) : State :=
  next (mkState (activeCount s - 1) (queue s)
          (without task (running s)) (started s)
          (settled s ++ [(task, true)]) (submitted s)).

(** [.catch((e) => { activeCount--; reject(e); next(); })]. *)
Definition onRejected (task : nat) (s : State) : State :=
  next (mkState (activeCount s - 1) (queue s)
          (without task (running s)) (started s)
          (settled s ++ [(task, false)]) (submitted s)).

(** One event of the event loop; only a running task can settle. *)
Definition exec (s : State) (e : Event) : option State :=
  match e with
  | Submit => Some (limit s)
  | Fulfil task =>
      if isRunning task s then Some (onFulfilled task s) else None
  | Reject task =>
      if isRunning task s then Some (onRejected task s) else None
  end.

Fixpoint run (events : list Event) (s : State) : option State :=
  match events with
  | [] => Some s
  | e :: rest =>
      match exec s e with
      | Some s' => run rest s'
      | None => None
      end
  end.

End WithConcurrency.

Definition isSettle (e : Event) : bool :=
  match e with Submit => false | Fulfil _ | Reject _ => true end.

Definition completions (events : list Event) : nat :=
  List.length (List.filter isSettle events).

End pLimit.

(** ** Start-time throttle: [makeStartThrottler]

    The closure state is [lastStart] and the promise [chain]; the chain
    is the list of callers whose callback has not run yet, oldest
    first.  Time is explicit: [clock] is the last reading of
    [Date.now()], readings never decrease, and a timer never fires
    before its delay has passed.  [granted] records each caller with the
    start time written for it.  A callback is one event, its sleep
    included: a call that arrives during the sleep only lines up at the
    end of the chain, as it does before or after the callback. *)

Module makeStartThrottler.

Record State : Type := mkState {
  lastStart : Z;
  chain : list nat;
  clock : Z;
  granted : list (nat * Z);
  calls : nat
}.

(** A throttler created at time [t0]: [lastStart = 0], empty chain. *)
Definition init (t0 : Z) : State := mkState 0 [] t0 [] 0.

Inductive Event : Type :=
| Call
    (* [waitForTurn()] is called *)
| Turn (elapsed : N) (jitter : N) (late : N).
    (* the oldest callback of the chain runs: [elapsed] ms after the
       previous reading of the clock; [jitter] is the random draw
       [Math.floor(Math.random() * 50)]; the second reading of the
       clock is [late] ms after the earliest possible one *)

Section WithInterval.

Variable minIntervalMs : Z.

(** [chain = chain.then(callback)]: the callback lines up last. *)
Definition waitForTurn (s : State) : State :=
  mkState (lastStart s) (chain s ++ [calls s]) (clock s) (granted s)
    (S (calls s)).

(** The body of the callback, run for the oldest caller in line. *)
Definition turn (elapsed jitter late : N) (s : State) : option State :=
  match chain s with
  | [] => None
  | caller :: rest =>
      let now := clock s + Z.of_N elapsed in
      let wait := Z.max 0 (lastStart s + minIntervalMs - now) in
      let start :=
        if 0 <? wait
        then now + (wait + Z.of_N jitter) + Z.of_N late
        else now + Z.of_N late in
      Some (mkState start rest start (granted s ++ [(caller, start)])
              (calls s))
  end.

Definition exec (s : State) (e : Event) : option State :=
  match e with
  | Call => Some (waitForTurn s)
  | Turn elapsed jitter late => turn elapsed jitter late s
  end.

Fixpoint run (events : list Event) (s : State) : option State :=
  match events with
  | [] => Some s
  | e :: rest =>
      match exec s e with
      | Some s' => run rest s'
      | None => None
      end
  end.

End WithInterval.

End makeStartThrottler.

(** ** Batch scheduler and reporter: [main] *)

(** The tunables, read from the environment with these defaults. *)
Record Config : Type := mkConfig {
  MAX_CONCURRENCY : Z;
  REQUEST_TIMEOUT_MS : Z;
  MAX_REDIRECTS : Z;
  BATCH_SIZE : Z;
  BATCH_PAUSE_MS : Z;
  MIN_START_INTERVAL_MS : Z
}.

Definition defaultConfig : Config := mkConfig 8 10000 5 10 750 300.

(** An element of [json.galaxies]: an object of which [id] and [name]
    are read ([JUndefined] when the property is missing; a number, text
    or boolean element reads as an object without properties; a [null]
    element, for which the reads throw, is left out). *)
Record Galaxy : Type := mkGalaxy { g_id : JsValue; g_name : JsValue }.

(** What reading and parsing the dataset file gives. *)
Inductive Dataset : Type :=
| Unreadable (e : Exception)  (* reading, parsing or [json.galaxies] throws *)
| NoArray                     (* [json.galaxies] is not an array *)
| Galaxies (galaxies : list Galaxy).

(** [Array.isArray(json.galaxies) ? json.galaxies : []]. *)
Definition galaxiesOf (d : Dataset) : list Galaxy :=
  match d with
  | Galaxies galaxies => galaxies
  | _ => []
  end.

(** Property read [o.key]. *)
Definition get (key : string) (o : gmap string JsValue) : JsValue :=
  default JUndefined (o !! key).

(** The own properties of the object returned by [checkUrl]. *)
Definition ownProperties (r : CheckResult) : gmap string JsValue :=
  match r_reason r with
  | Some text =>
      {[ "url" := JStr (r_url r); "valid" := JBool (r_valid r);
         "reason" := JStr text ]}
  | None => {[ "url" := JStr (r_url r); "valid" := JBool (r_valid r) ]}
  end.

(** [{ id: g.id, name, url, ...r }]: the spread properties are written
    last, so they win over the properties listed before them. *)
Definition entry (g : Galaxy) (name : JsValue) (url : string)
  (r : CheckResult) : gmap string JsValue :=
  ownProperties r ∪ {[ "id" := g_id g; "name" := name; "url" := JStr url ]}.

(** [l.slice(from, to)] for integer bounds. *)
Definition slice {A : Type} (l : list A) (from to : Z) : list A :=
  let len := Z.of_nat (List.length l) in
  let k := if from <? 0 then Z.max (len + from) 0 else Z.min from len in
  let final := if to <? 0 then Z.max (len + to) 0 else Z.min to len in
  firstn (Z.to_nat (final - k)) (skipn (Z.to_nat k) l).

(** The lines written to the two output streams, by the data they
    carry (blank lines are left out). *)
Inductive Output : Type :=
| NoGalaxiesFound
| Validating (n : Z)
| Progress (completed total : Z)
| InvalidLinks (n : Z)
| InvalidLink (id name url reason : JsValue)
| AndMore (n : Z)
| AllValid (n : Z)
| UnexpectedError (e : Exception).

(** The variables of [main] that change while it runs, and a log of the
    requests issued, each with the position of its record. *)
Record Run : Type := mkRun {
  completed : Z;
  results : list (gmap string JsValue);
  output : list Output;
  network : list (nat * Request)
}.

(** How the promise of the batch loop ends. *)
Inductive Outcome : Type :=
| Settled (st : Run)
| Rejected (e : Exception) (st : Run).

(** [name = g.name || ''; url = buildUrlFromName(name)]. *)
Definition prepare (g : Galaxy) : Completion (JsValue * string) :=
  let name := js_or (g_name g) (JStr EmptyString) in
  match buildUrlFromName name with
  | Normal url => Normal (name, url)
  | Throw e => Throw e
  end.

(** The callback of [batch.map(...)] up to the submission of the task,
    record after record: the first throw ends the map. *)
Fixpoint prepareAll (batch : list (nat * Galaxy))
  : Completion (list (nat * Galaxy * (JsValue * string))) :=
  match batch with
  | [] => Normal []
  | (i, g) :: rest =>
      match prepare g with
      | Throw e => Throw e
      | Normal nu =>
          match prepareAll rest with
          | Throw e => Throw e
          | Normal tasks => Normal ((i, g, nu) :: tasks)
          end
      end
  end.

Section Main.

Variable resolveUrl : Resolver.
Variable cfg : Config.
Variable isTTY : bool.
(** The network: the probe oracle seen by the resolution of the i-th
    record. *)
Variable net : nat -> Oracle.
(** The array [list] of the records. *)
Variable galaxies : list Galaxy.

Definition total : Z := Z.of_nat (List.length galaxies).

(** [printProgress()]; the percentage is left out of the line. *)
Definition printProgress (completed : Z) : list Output :=
  if isTTY then [Progress completed total]
  else if (Z.rem completed 25 =? 0) || (completed =? total)
       then [Progress completed total]
       else [].

(** The object that the task of a record resolves with:
    [{ id: g.id, name, url, ...r }] for [r] the result of [checkUrl(url)]. *)
Definition taskEntry (task : nat * Galaxy * (JsValue * string))
  : gmap string JsValue :=
  let '(i, g, (name, url)) := task in
  entry g name url (checkUrl resolveUrl (MAX_REDIRECTS cfg) (net i) url).

(** One task runs to its end: the throttled [checkUrl(url)] sends its
    requests, then [completed++; printProgress()]. *)
Definition settleTask (task : nat * Galaxy * (JsValue * string)) (st : Run)
  : Run :=
  let '(i, g, (name, url)) := task in
  let run := checkUrl_run resolveUrl (MAX_REDIRECTS cfg) (net i) url in
  mkRun (completed st + 1)
        (results st)
        (output st ++ printProgress (completed st + 1))
        (network st ++ map (pair i) (requests run)).

(** [results.push(...await Promise.all(tasks))]: every task settles,
    then the objects are pushed in the order of the tasks.  The tasks
    are settled here in input order; the values taken by [completed],
    the progress lines and [results] do not depend on the order in
    which the tasks settle ([settleEach_any_order] below), only the
    interleaving of the logged requests of different records does. *)
Definition settleBatch (tasks : list (nat * Galaxy * (JsValue * string)))
  (st : Run) : Run :=
  let st' := fold_left (fun st task => settleTask task st) tasks st in
  mkRun (completed st') (results st' ++ map taskEntry tasks)
        (output st') (network st').

(** One batch: [batch.map(...)] builds and submits the tasks, and
    [Promise.all] waits for all of them.  A throw inside [map] rejects
    [main] at once, before any task of the batch has sent a request.
    The limiter starts a task only when [activeCount < MAX_CONCURRENCY],
    so with no slot a non-empty batch never settles ([None]). *)
Definition runBatch (batch : list (nat * Galaxy)) (st : Run)
  : option Outcome :=
  match prepareAll batch with
  | Throw e => Some (Rejected e st)
  | Normal [] => Some (Settled st)
  | Normal tasks =>
      if 0 <? MAX_CONCURRENCY cfg
      then Some (Settled (settleBatch tasks st))
      else None
  end.

Definition indexed : list (nat * Galaxy) :=
  combine (seq 0 (List.length galaxies)) galaxies.

(** [for (let i = 0; i < list.length; i += BATCH_SIZE) { ... }]; the loop
    need not end, so it is run with fuel ([None] when it runs out). *)
Fixpoint batches (fuel : nat) (i : Z) (st : Run) : option Outcome :=
  if i <? total then
    match fuel with
    | O => None
    | S fuel' =>
        match runBatch (slice indexed i (i + BATCH_SIZE cfg)) st with
        | Some (Settled st') => batches fuel' (i + BATCH_SIZE cfg) st'
        | other => other
        end
    end
  else Some (Settled st).

Definition isInvalid (r : gmap string JsValue) : bool :=
  negb (truthy (get "valid" r)).

Definition invalidLine (r : gmap string JsValue) : Output :=
  InvalidLink (get "id" r) (get "name" r) (get "url" r) (get "reason" r).

(** The end of [main]: the report and the exit status. *)
Definition report (st : Run) : Z * Run :=
  let invalid := List.filter isInvalid (results st) in
  let n := Z.of_nat (List.length invalid) in
  if negb (n =? 0)
  then (1, mkRun (completed st) (results st)
             (output st ++ [InvalidLinks n]
                ++ map invalidLine (firstn 50 invalid)
                ++ (if 50 <? n then [AndMore (n - 50)] else []))
             (network st))
  else (0, mkRun (completed st) (results st)
             (output st ++ [AllValid (Z.of_nat (List.length (results st)))])
             (network st)).

End Main.

(** [main().catch(...)]: the exit status of the process and the final
    state, or [None] when the process does not get there. *)
Definition main (resolveUrl : Resolver) (cfg : Config) (isTTY : bool)
  (net : nat -> Oracle) (dataset : Dataset) (fuel : nat) : option (Z * Run) :=
  match dataset with
  | Unreadable e => Some (1, mkRun 0 [] [UnexpectedError e] [])
  | _ =>
      let galaxies := galaxiesOf dataset in
      if Z.of_nat (List.length galaxies) =? 0
      then Some (1, mkRun 0 [] [NoGalaxiesFound] [])
      else
        match batches resolveUrl cfg isTTY net galaxies fuel 0
                (mkRun 0 [] [Validating (Z.of_nat (List.length galaxies))] [])
        with
        | None => None
        | Some (Rejected e st) =>
            Some (1, mkRun (completed st) (results st)
                       (output st ++ [UnexpectedError e]) (network st))
        | Some (Settled st) => Some (report st)
        end
  end.

(** ** Shapes of results and of request logs *)

Definition tooManyRedirects (u : string) : CheckResult :=
  mkResult u false (Some "too many redirects").

(** The request log of a resolution is a sequence of hops: a HEAD
    request, followed or not by one GET request for the same URL. *)
Inductive HopLog : list Request -> Prop :=
| HopLog_nil : HopLog []
| HopLog_head (u : string) (l : list Request) :
    HopLog l -> HopLog (mkRequest HEAD u :: l)
| HopLog_fallback (u : string) (l : list Request) :
    HopLog l -> HopLog (mkRequest HEAD u :: mkRequest GET u :: l).

(** ** A URL resolver for the examples

    A fragment of the platform's [new URL(loc, base)]: an absolute
    http(s) location is kept when it names a host (a missing path
    becomes the root path) and rejected when the host is empty; a
    location starting with a slash replaces the path of the base.
    Other shapes of location are not covered and are rejected here. *)

Fixpoint untilSlash (s : string) : string :=
  match s with
  | EmptyString => EmptyString
  | String c rest =>
      if Ascii.eqb c "/" then EmptyString else String c (untilSlash rest)
  end.

Fixpoint fromSlash (s : string) : string :=
  match s with
  | EmptyString => EmptyString
  | String c rest => if Ascii.eqb c "/" then s else fromSlash rest
  end.

Definition dropPrefix (p s : string) : option string :=
  if String.prefix p s
  then Some (String.substring (String.length p)
               (String.length s - String.length p) s)
  else None.

Definition absoluteUrl (scheme rest : string) : option string :=
  if String.eqb (untilSlash rest) EmptyString then None
  else Some (scheme +:+ untilSlash rest +:+
             (if String.eqb (fromSlash rest) EmptyString then "/" else fromSlash rest)).

Definition originOf (base : string) : option string :=
  match dropPrefix "https://" base, dropPrefix "http://" base with
  | Some rest, _ => Some ("https://" +:+ untilSlash rest)
  | None, Some rest => Some ("http://" +:+ untilSlash rest)
  | None, None => None
  end.

Definition exampleResolver : Resolver := fun loc base =>
  match dropPrefix "https://" loc, dropPrefix "http://" loc with
  | Some rest, _ => absoluteUrl "https://" rest
  | None, Some rest => absoluteUrl "http://" rest
  | None, None =>
      if String.prefix "/" loc
      then option_map (fun origin => origin +:+ loc) (originOf base)
      else None
  end.

(** ** Example networks *)

(** Every request is answered with a redirect to [/wiki/Next]. *)
Definition endlessRedirects : Oracle :=
  fun _ _ => Response 301 (Some "/wiki/Next").

(** Five redirects, then a redirect whose location names no host. *)
Definition brokenSixthRedirect : Oracle :=
  fun k _ =>
    if (k <? 5)%nat then Response 301 (Some "/wiki/Next")
    else Response 302 (Some "https://").

(** A server that refuses HEAD and accepts GET. *)
Definition headRefused : Oracle :=
  fun _ rq =>
    match rq_method rq with
    | HEAD => Response 405 None
    | GET => Response 200 None
    end.

(** A server that refuses both methods. *)
Definition allRefused : Oracle := fun _ _ => Response 403 None.


(** ** State invariants *)

(** What holds of the limiter between two events: the counter is the
    number of running tasks and stays within the limit; the tasks
    started so far followed by the queue are the submissions in order;
    a task waits only while every slot is taken. *)
Definition limiterInv (concurrency : Z) (s : pLimit.State) : Prop :=
  pLimit.activeCount s = Z.of_nat (List.length (pLimit.running s))
  /\ pLimit.activeCount s <= concurrency
  /\ pLimit.started s ++ pLimit.queue s = seq 0 (pLimit.submitted s)
  /\ List.NoDup (pLimit.running s)
  /\ List.incl (pLimit.running s) (pLimit.started s)
  /\ (pLimit.queue s <> [] -> pLimit.activeCount s = concurrency).

(** The start times in a list keep the distance [gap]. *)
Fixpoint spaced (gap : Z) (times : list Z) : Prop :=
  match times with
  | [] => True
  | t :: later => Forall (fun t' => t + gap <= t') later /\ spaced gap later
  end.

(** What holds of the throttle between two events: the callers granted
    so far followed by the chain are the calls in order; the granted
    start times keep the interval and none is later than [lastStart];
    once a turn was granted the clock reads [lastStart]. *)
Definition throttleInv (minIntervalMs : Z) (s : makeStartThrottler.State)
  : Prop :=
  map fst (makeStartThrottler.granted s) ++ makeStartThrottler.chain s
  = seq 0 (makeStartThrottler.calls s)
  /\ spaced minIntervalMs (map snd (makeStartThrottler.granted s))
  /\ Forall (fun t => t <= makeStartThrottler.lastStart s)
       (map snd (makeStartThrottler.granted s))
  /\ (makeStartThrottler.granted s <> [] ->
      makeStartThrottler.clock s = makeStartThrottler.lastStart s).

(** ** Notions used in the statements about [main] *)


(** A record as the data model has it: the name is a text, or is
    missing. *)
Definition hasTextName (g : Galaxy) : bool :=
  match js_or (g_name g) (JStr EmptyString) with
  | JStr _ => true
  | _ => false
  end.

(** The values of [completed] shown by the progress lines, in order. *)
Fixpoint progressValues (out : list Output) : list Z :=
  match out with
  | [] => []
  | Progress completed _ :: rest => completed :: progressValues rest
  | _ :: rest => progressValues rest
  end.


(** The state in which the batch loop starts. *)
Definition initialRun (galaxies : list Galaxy) : Run :=
  mkRun 0 [] [Validating (Z.of_nat (List.length galaxies))] [].

(** ** Example datasets *)

Definition threeGalaxies : list Galaxy :=
  [ mkGalaxy (JNum 1) (JStr "Euclid");
    mkGalaxy (JNum 2) (JStr "Hilbert Dimension");
    mkGalaxy (JNum 3) JUndefined ].

(** Every page exists. *)
Definition allFound : nat -> Oracle := fun _ _ _ => Response 200 None.

(** The page of the second record is missing. *)
Definition secondMissing : nat -> Oracle :=
  fun i _ _ => if (i =? 1)%nat then Response 404 None else Response 200 None.

(** ** Further notions for the properties of the components *)

Fixpoint hasUnderscore (s : string) : bool :=
  match s with
  | EmptyString => false
  | String c rest => Ascii.eqb c "_" || hasUnderscore rest
  end.

Definition isText (v : JsValue) : bool :=
  match v with
  | JStr _ => true
  | _ => false
  end.

(** The number of HEAD requests in a log: the hops that were probed. *)
Definition hopsProbed (log : list Request) : nat :=
  List.length (List.filter (fun rq => isHEAD (rq_method rq)) log).

(** What holds of the limiter about the promises it has settled: each
    task settles its caller's promise at most once, the settled tasks
    are the started ones that no longer run, and the counts add up. *)
Definition settledInv (s : pLimit.State) : Prop :=
  List.NoDup (map fst (pLimit.settled s))
  /\ (forall t : nat, List.In t (map fst (pLimit.settled s)) ->
        List.In t (pLimit.started s) /\ ~ List.In t (pLimit.running s))
  /\ (forall t : nat, List.In t (pLimit.started s) ->
        List.In t (pLimit.running s)
        \/ List.In t (map fst (pLimit.settled s)))
  /\ List.length (pLimit.started s)
     = (List.length (pLimit.running s)
        + List.length (pLimit.settled s))%nat.

(** A limiter in which nothing was ever started. *)
Definition idleInv (s : pLimit.State) : Prop :=
  pLimit.activeCount s = 0
  /\ pLimit.running s = []
  /\ pLimit.started s = []
  /\ pLimit.settled s = []
  /\ pLimit.queue s = seq 0 (pLimit.submitted s).

Definition isProgress (o : Output) : bool :=
  match o with
  | Progress _ _ => true
  | _ => false
  end.

(** The lines of an output other than the progress lines. *)
Definition withoutProgress (out : list Output) : list Output :=
  List.filter (fun o => negb (isProgress o)) out.




(** ** Further examples *)

(** The constants of the script, with batches of one record. *)
Definition oneByOne : Config := mkConfig 8 10000 5 1 750 300.


(** ** The iterations of the batch loop *)

(** The iterations of the loop of [main] when no batch rejects: the
    batch that each one takes, and whether it ends with
    [await sleep(BATCH_PAUSE_MS)], which is when
    [i + BATCH_SIZE < list.length]. *)
Fixpoint batchPlan (cfg : Config) (galaxies : list Galaxy) (fuel : nat)
  (i : Z) : option (list (list (nat * Galaxy) * bool)) :=
  if i <? total galaxies then
    match fuel with
    | O => None
    | S fuel' =>
        match batchPlan cfg galaxies fuel' (i + BATCH_SIZE cfg) with
        | Some plan =>
            Some ((slice (indexed galaxies) i (i + BATCH_SIZE cfg),
                   i + BATCH_SIZE cfg <? total galaxies) :: plan)
        | None => None
        end
    end
  else Some [].

(** The batches of a plan run one after the other, up to the first
    one that does not settle. *)
Fixpoint runPlan (resolveUrl : Resolver) (cfg : Config) (isTTY : bool)
  (net : nat -> Oracle) (galaxies : list Galaxy)
  (plan : list (list (nat * Galaxy) * bool)) (st : Run) : option Outcome :=
  match plan with
  | [] => Some (Settled st)
  | (batch, _) :: rest =>
      match runBatch resolveUrl cfg isTTY net galaxies batch st with
      | Some (Settled st') =>
          runPlan resolveUrl cfg isTTY net galaxies rest st'
      | other => other
      end
  end.

(** * Properties *)

(** ** URL builder *)

Lemma split_nonempty (sep : ascii) (s : string) : split sep s <> [].
Proof.
  destruct s as [ | c rest]; simpl; [ discriminate | ].
  destruct (Ascii.eqb c sep); [ discriminate | ].
  destruct (split sep rest); discriminate.
Qed.

Lemma join_cons (sep x : string) (l : list string) :
  l <> [] -> join sep (x :: l) = x +:+ sep +:+ join sep l.
Proof. destruct l; [ congruence | reflexivity ]. Qed.

Lemma join_push_char (sep : string) (c : ascii) (seg : string)
  (segs : list string) :
  join sep (String c seg :: segs) = String c (join sep (seg :: segs)).
Proof. destruct segs; reflexivity. Qed.

(** Splitting at the spaces and joining with underscores is the
    character-wise replacement. *)
Lemma join_split_replace (s : string) :
  join "_" (split " " s) = replaceSpaces s.
Proof.
  induction s as [ | c rest IH]; [ reflexivity | ].
  simpl. unfold spaceToUnderscore.
  destruct (Ascii.eqb c " ") eqn:Hc.
  - rewrite join_cons by apply split_nonempty.
    simpl. now rewrite IH.
  - pose proof (split_nonempty " " rest) as Hne.
    destruct (split " " rest) as [ | seg segs]; [ congruence | ].
    rewrite join_push_char. now rewrite IH.
Qed.

Lemma build_replace (name : string) : build name = build_spec name.
Proof. unfold build, build_spec. now rewrite join_split_replace. Qed.

Lemma replaceSpaces_length (s : string) :
  String.length (replaceSpaces s) = String.length s.
Proof. induction s; simpl; congruence. Qed.

Lemma replaceSpaces_get (s : string) (i : nat) :
  String.get i (replaceSpaces s) = option_map spaceToUnderscore (String.get i s).
Proof.
  revert i. induction s as [ | c rest IH]; intros [ | i]; simpl; auto.
Qed.

Lemma hasSpace_append (a b : string) :
  hasSpace (a +:+ b) = hasSpace a || hasSpace b.
Proof.
  induction a as [ | c rest IH]; simpl; [ reflexivity | ].
  now rewrite IH, orb_assoc.
Qed.

Lemma hasSpace_replaceSpaces (s : string) : hasSpace (replaceSpaces s) = false.
Proof.
  induction s as [ | c rest IH]; simpl; [ reflexivity | ].
  rewrite IH, orb_false_r. unfold spaceToUnderscore.
  destruct (Ascii.eqb c " ") eqn:Hc; [ reflexivity | exact Hc ].
Qed.

Lemma replaceSpaces_fixed (s : string) :
  hasSpace s = false -> replaceSpaces s = s.
Proof.
  induction s as [ | c rest IH]; simpl; [ reflexivity | ].
  intros H. apply orb_false_elim in H as [Hc Hrest].
  unfold spaceToUnderscore. rewrite Hc. now rewrite IH.
Qed.

Lemma hasSpace_build (name : string) : hasSpace (build name) = false.
Proof.
  rewrite build_replace. unfold build_spec.
  rewrite hasSpace_append, hasSpace_replaceSpaces. reflexivity.
Qed.

(** C7.  For every text [name], the empty one included,
    [buildUrlFromName] returns normally, and what it returns is the base
    path followed by [name] with each space turned into an underscore:
    the suffix has the length of [name] and its i-th character is the
    i-th character of [name], or an underscore where that is a space. *)
Theorem buildUrlFromName_replaces_spaces (name : string) :
  buildUrlFromName (JStr name) = Normal (BASE +:+ replaceSpaces name)
  /\ String.length (replaceSpaces name) = String.length name
  /\ forall i : nat,
       String.get i (replaceSpaces name)
       = option_map (fun c : ascii => if Ascii.eqb c " " then "_"%char else c)
           (String.get i name).
Proof.
  split; [ | split ].
  - unfold buildUrlFromName, js_or. simpl.
    destruct (String.eqb name EmptyString) eqn:Hempty; simpl.
    + apply String.eqb_eq in Hempty. now subst.
    + now rewrite build_replace.
  - apply replaceSpaces_length.
  - intros i. apply replaceSpaces_get.
Qed.

(** C8, as stated, fails: the output for "a b" has no space left, and
    building again from it gives a different text. *)
Lemma build_twice_differs :
  hasSpace (build "a b") = false /\ build (build "a b") <> build "a b".
Proof. split; [ reflexivity | discriminate ]. Qed.

(** C8, amended.  For every name, the output of [build] has no space
    left; replacing the spaces of an already replaced name changes
    nothing; and building again from the output only puts the base path
    in front of it once more. *)
Theorem build_twice (n : string) :
  hasSpace (build n) = false
  /\ join "_" (split " " (join "_" (split " " n))) = join "_" (split " " n)
  /\ build (build n) = BASE +:+ build n.
Proof.
  split; [ apply hasSpace_build | split ].
  - rewrite !join_split_replace.
    apply replaceSpaces_fixed, hasSpace_replaceSpaces.
  - unfold build at 1. rewrite join_split_replace.
    now rewrite (replaceSpaces_fixed _ (hasSpace_build n)).
Qed.

(** ** Redirect/method resolver *)

Section ResolutionFacts.

Variable resolveUrl : Resolver.
Variable maxRedirects : Z.

Local Abbreviation pass := (step resolveUrl).
Local Abbreviation loop := (checkUrl_loop resolveUrl maxRedirects).

Lemma checkUrl_loop_eq (oracle : Oracle) (st : Probing) (k : nat) :
  loop oracle st k =
  if redirects st <=? maxRedirects then
    match pass st (oracle k (request st)) with
    | Done r => mkResolution r (redirects st) [request st]
    | Continue st' => sent (request st) (loop oracle st' (S k))
    end
  else mkResolution (tooManyRedirects (currentUrl st)) (redirects st) [].
Proof.
  funelim (checkUrl_loop resolveUrl maxRedirects oracle st k).
  - now rewrite e.
  - rewrite Hle. clear H. now rewrite e.
  - rewrite Hle. clear H H0. now rewrite Hstep.
Qed.

(** Induction along the passes of the loop. *)
Lemma checkUrl_loop_ind (oracle : Oracle)
  (P : Probing -> nat -> Resolution -> Prop) :
  (forall st k, maxRedirects < redirects st ->
     P st k (mkResolution (tooManyRedirects (currentUrl st)) (redirects st) [])) ->
  (forall st k r, redirects st <= maxRedirects ->
     pass st (oracle k (request st)) = Done r ->
     P st k (mkResolution r (redirects st) [request st])) ->
  (forall st k st', redirects st <= maxRedirects ->
     pass st (oracle k (request st)) = Continue st' ->
     P st' (S k) (loop oracle st' (S k)) ->
     P st k (sent (request st) (loop oracle st' (S k)))) ->
  forall st k, P st k (loop oracle st k).
Proof.
  intros Hexit Hdone Hcont st k.
  funelim (checkUrl_loop resolveUrl maxRedirects oracle st k).
  - apply Hexit. apply Z.leb_gt. assumption.
  - apply Hdone; [ now apply Z.leb_le | assumption ].
  - apply Hcont; [ now apply Z.leb_le | assumption | ].
    apply H; assumption.
Qed.

(** The two ways in which a pass continues. *)
Lemma step_Continue (st st' : Probing) (last : ProbeOutcome) :
  pass st last = Continue st' ->
  (exists status location,
      last = Response status location /\ (status = 405 \/ status = 403)
      /\ method st = HEAD
      /\ st' = mkProbing GET (currentUrl st) (redirects st))
  \/ (exists status location next,
      last = Response status (Some location)
      /\ 300 <= status < 400 /\ location <> EmptyString
      /\ resolveUrl location (currentUrl st) = Some next
      /\ st' = mkProbing HEAD next (redirects st + 1)).
Proof.
  unfold step. destruct last as [status location | message];
    [ | discriminate ].
  destruct ((200 <=? status) && (status <? 300)); [ discriminate | ].
  destruct (((status =? 405) || (status =? 403)) && isHEAD (method st)) eqn:Hfb.
  - intros [= <-]. left. exists status, location.
    apply andb_prop in Hfb as [Hs Hm]. apply orb_prop in Hs.
    repeat split.
    + destruct Hs as [Hs | Hs]; apply Z.eqb_eq in Hs; auto.
    + destruct (method st); [ reflexivity | discriminate ].
  - unfold redirectLocation.
    destruct ((300 <=? status) && (status <? 400)) eqn:Hr; [ | discriminate ].
    unfold locationOf. destruct location as [l | ]; [ | discriminate ].
    destruct (String.eqb l EmptyString) eqn:Hl; [ discriminate | ].
    destruct (resolveUrl l (currentUrl st)) as [next | ] eqn:Hres;
      [ | discriminate ].
    intros [= <-]. right. exists status, l, next.
    apply andb_prop in Hr as [H1 H2].
    apply Z.leb_le in H1. apply Z.ltb_lt in H2.
    apply String.eqb_neq in Hl. repeat split; auto.
Qed.

Lemma step_fallback (st : Probing) (status : Z) (location : option string) :
  status = 403 \/ status = 405 -> method st = HEAD ->
  pass st (Response status location)
  = Continue (mkProbing GET (currentUrl st) (redirects st)).
Proof.
  intros Hs Hm. unfold step. rewrite Hm.
  destruct Hs as [-> | ->]; reflexivity.
Qed.

Lemma step_refused_again (st : Probing) (status : Z)
  (location : option string) :
  status = 403 \/ status = 405 -> method st = GET ->
  pass st (Response status location)
  = Done (mkResult (currentUrl st) false (Some (httpReason status))).
Proof.
  intros Hs Hm. unfold step. rewrite Hm.
  destruct Hs as [-> | ->]; reflexivity.
Qed.

Lemma step_redirect (st : Probing) (status : Z) (location next : string) :
  300 <= status < 400 -> location <> EmptyString ->
  resolveUrl location (currentUrl st) = Some next ->
  pass st (Response status (Some location))
  = Continue (mkProbing HEAD next (redirects st + 1)).
Proof.
  intros Hs Hl Hres. unfold step.
  replace ((200 <=? status) && (status <? 300)) with false
    by (symmetry; apply andb_false_iff; right; apply Z.ltb_ge; lia).
  replace ((status =? 405) || (status =? 403)) with false
    by (symmetry; apply orb_false_iff; split; apply Z.eqb_neq; lia).
  simpl. unfold redirectLocation.
  replace ((300 <=? status) && (status <? 400)) with true
    by (symmetry; apply andb_true_iff; split;
        [ apply Z.leb_le | apply Z.ltb_lt ]; lia).
  unfold locationOf. apply String.eqb_neq in Hl. rewrite Hl.
  now rewrite Hres.
Qed.

Lemma step_unresolved (st : Probing) (status : Z) (location : string) :
  300 <= status < 400 -> location <> EmptyString ->
  resolveUrl location (currentUrl st) = None ->
  pass st (Response status (Some location))
  = Done (mkResult (currentUrl st) false (Some "invalid redirect location")).
Proof.
  intros Hs Hl Hres. unfold step.
  replace ((200 <=? status) && (status <? 300)) with false
    by (symmetry; apply andb_false_iff; right; apply Z.ltb_ge; lia).
  replace ((status =? 405) || (status =? 403)) with false
    by (symmetry; apply orb_false_iff; split; apply Z.eqb_neq; lia).
  simpl. unfold redirectLocation.
  replace ((300 <=? status) && (status <? 400)) with true
    by (symmetry; apply andb_true_iff; split;
        [ apply Z.leb_le | apply Z.ltb_lt ]; lia).
  unfold locationOf. apply String.eqb_neq in Hl. rewrite Hl.
  now rewrite Hres.
Qed.

(** Each hop is probed with HEAD, then at most once with GET. *)
Lemma requests_HopLog (oracle : Oracle) (st : Probing) (k : nat) :
  HopLog (match method st with
          | HEAD => requests (loop oracle st k)
          | GET => mkRequest HEAD (currentUrl st) :: requests (loop oracle st k)
          end).
Proof.
  revert st k.
  apply (checkUrl_loop_ind oracle (fun st _ run =>
    HopLog (match method st with
            | HEAD => requests run
            | GET => mkRequest HEAD (currentUrl st) :: requests run
            end))).
  - intros st k _. simpl. destruct (method st); repeat constructor.
  - intros st k r _ _. simpl. unfold request.
    destruct (method st);
      [ apply HopLog_head | apply HopLog_fallback ]; apply HopLog_nil.
  - intros st k st' _ Hstep IH. simpl. unfold request.
    apply step_Continue in Hstep
      as [(status & location & _ & _ & Hm & ->)
         | (status & location & next & _ & _ & _ & _ & ->)];
      simpl in IH.
    + rewrite Hm. exact IH.
    + destruct (method st);
        [ apply HopLog_head | apply HopLog_fallback ]; exact IH.
Qed.

(** A resolution sends at most two requests per hop. *)
Lemma requests_bound (oracle : Oracle) (st : Probing) (k : nat) :
  (method st = GET -> redirects st <= maxRedirects) ->
  (List.length (requests (loop oracle st k))
   + (if isHEAD (method st) then 0 else 1)
   <= 2 * Z.to_nat (maxRedirects + 1 - redirects st))%nat.
Proof.
  revert st k.
  apply (checkUrl_loop_ind oracle (fun st _ run =>
    (method st = GET -> redirects st <= maxRedirects) ->
    (List.length (requests run) + (if isHEAD (method st) then 0 else 1)
     <= 2 * Z.to_nat (maxRedirects + 1 - redirects st))%nat)).
  - intros st k Hgt Hget. simpl.
    destruct (method st); simpl; [ lia | ].
    specialize (Hget eq_refl). lia.
  - intros st k r Hle _ _. simpl.
    destruct (method st); simpl; lia.
  - intros st k st' Hle Hstep IH _. simpl.
    apply step_Continue in Hstep
      as [(status & location & _ & _ & Hm & ->)
         | (status & location & next & _ & _ & _ & _ & ->)];
      simpl in IH.
    + rewrite Hm. simpl. specialize (IH (fun _ => Hle)). lia.
    + specialize (IH ltac:(discriminate)).
      replace (maxRedirects + 1 - redirects st)
        with (Z.succ (maxRedirects + 1 - (redirects st + 1))) by lia.
      rewrite Z2Nat.inj_succ by lia.
      destruct (method st); simpl; lia.
Qed.

(** The counter of redirects only grows, and the loop is left through
    its condition exactly when the counter has passed the limit. *)
Lemma redirectsTaken_verdict (oracle : Oracle) (st : Probing) (k : nat) :
  redirects st <= redirectsTaken (loop oracle st k)
  /\ (maxRedirects < redirectsTaken (loop oracle st k) ->
      r_valid (result (loop oracle st k)) = false
      /\ r_reason (result (loop oracle st k)) = Some "too many redirects").
Proof.
  revert st k.
  apply (checkUrl_loop_ind oracle (fun st _ run =>
    redirects st <= redirectsTaken run
    /\ (maxRedirects < redirectsTaken run ->
        r_valid (result run) = false
        /\ r_reason (result run) = Some "too many redirects"))).
  - intros st k _. simpl. split; [ lia | auto ].
  - intros st k r Hle _. simpl. split; lia.
  - intros st k st' Hle Hstep [IH1 IH2]. simpl.
    split; [ | exact IH2 ].
    apply step_Continue in Hstep
      as [(status & location & _ & _ & Hm & ->)
         | (status & location & next & _ & _ & _ & _ & ->)];
      simpl in IH1; lia.
Qed.


End ResolutionFacts.

(** C1, as stated, fails: with the limit at 5, the sixth request is
    sent with five redirects taken; it is answered with status 302 and
    a Location header, and the verdict is not "too many redirects". *)
Lemma limit_reached_other_reason :
  let st := mkProbing HEAD "https://nomanssky.fandom.com/wiki/Next" 5 in
  let run := checkUrl_run exampleResolver 5 brokenSixthRedirect
               (build "Euclid") in
  run = sent (mkRequest HEAD (build "Euclid"))
          (sent (request st) (sent (request st) (sent (request st)
             (sent (request st)
                (checkUrl_loop exampleResolver 5 brokenSixthRedirect st 5%nat)))))
  /\ 5 <= redirects st
  /\ brokenSixthRedirect 5%nat (request st) = Response 302 (Some "https://")
  /\ r_reason (result run) = Some "invalid redirect location"
  /\ r_reason (result run) <> Some "too many redirects".
Proof.
  intros st run.
  split; [ vm_compute; reflexivity | ].
  split; [ simpl; lia | ].
  split; [ reflexivity | ].
  split; [ vm_compute; reflexivity | vm_compute; discriminate ].
Qed.

(** C1, amended.  [checkUrl] ends for every sequence of answers, after
    at most two requests per allowed hop.  When a status in [300,400)
    with a non-empty Location header is observed while the redirects
    taken have reached the limit, the result is invalid with reason
    "too many redirects" if the location resolves against the current
    URL, and no request is sent to the resolved URL; if the location
    does not resolve, the reason is "invalid redirect location".  A
    resolution whose count of redirects has passed the limit has no
    other verdict than "too many redirects". *)
Theorem checkUrl_redirect_limit (resolveUrl : Resolver) (maxRedirects : Z)
  (oracle : Oracle) :
  (forall url : string,
      (List.length (requests (checkUrl_run resolveUrl maxRedirects oracle url))
       <= 2 * Z.to_nat (maxRedirects + 1))%nat)
  /\ (forall (st : Probing) (k : nat) (status : Z) (location next : string),
        maxRedirects <= redirects st ->
        oracle k (request st) = Response status (Some location) ->
        300 <= status < 400 -> location <> EmptyString ->
        resolveUrl location (currentUrl st) = Some next ->
        let run := checkUrl_loop resolveUrl maxRedirects oracle st k in
        r_valid (result run) = false
        /\ r_reason (result run) = Some "too many redirects"
        /\ (List.length (requests run) <= 1)%nat)
  /\ (forall (st : Probing) (k : nat) (status : Z) (location : string),
        redirects st <= maxRedirects ->
        oracle k (request st) = Response status (Some location) ->
        300 <= status < 400 -> location <> EmptyString ->
        resolveUrl location (currentUrl st) = None ->
        result (checkUrl_loop resolveUrl maxRedirects oracle st k)
        = mkResult (currentUrl st) false (Some "invalid redirect location"))
  /\ (forall url : string,
        let run := checkUrl_run resolveUrl maxRedirects oracle url in
        maxRedirects < redirectsTaken run ->
        r_valid (result run) = false
        /\ r_reason (result run) = Some "too many redirects").
Proof.
  repeat apply conj.
  - intros url. unfold checkUrl_run.
    pose proof (requests_bound resolveUrl maxRedirects oracle
                  (mkProbing HEAD url 0) 0%nat) as Hb.
    simpl in Hb. specialize (Hb ltac:(discriminate)).
    rewrite Z.sub_0_r in Hb. lia.
  - intros st k status location next Hmax Hlast Hs Hl Hres run.
    subst run. rewrite checkUrl_loop_eq.
    destruct (redirects st <=? maxRedirects) eqn:Hle;
      [ | simpl; auto ].
    apply Z.leb_le in Hle.
    rewrite Hlast, (step_redirect _ _ _ _ _ Hs Hl Hres).
    rewrite checkUrl_loop_eq. simpl.
    replace (redirects st + 1 <=? maxRedirects) with false
      by (symmetry; apply Z.leb_gt; lia).
    simpl. auto.
  - intros st k status location Hle Hlast Hs Hl Hres.
    rewrite checkUrl_loop_eq.
    apply Z.leb_le in Hle. rewrite Hle.
    now rewrite Hlast, (step_unresolved _ _ _ _ Hs Hl Hres).
  - intros url run. subst run. unfold checkUrl_run.
    apply redirectsTaken_verdict.
Qed.

Lemma checkUrl_redirect_limit_witness :
  (let run := checkUrl_loop exampleResolver 5 endlessRedirects
                (mkProbing HEAD "https://nomanssky.fandom.com/wiki/Next" 5)
                5%nat
   in r_valid (result run) = false
      /\ r_reason (result run) = Some "too many redirects"
      /\ (List.length (requests run) <= 1)%nat)
  /\ result (checkUrl_loop exampleResolver 5 brokenSixthRedirect
               (mkProbing HEAD "https://nomanssky.fandom.com/wiki/Next" 5)
               5%nat)
     = mkResult "https://nomanssky.fandom.com/wiki/Next" false
         (Some "invalid redirect location")
  /\ (let run := checkUrl_run exampleResolver 5 endlessRedirects
                   (build "Euclid")
      in r_valid (result run) = false
         /\ r_reason (result run) = Some "too many redirects").
Proof.
  split; [ | split ].
  - apply (proj1 (proj2 (checkUrl_redirect_limit exampleResolver 5
                           endlessRedirects))
             (mkProbing HEAD "https://nomanssky.fandom.com/wiki/Next" 5)
             5%nat 301 "/wiki/Next" "https://nomanssky.fandom.com/wiki/Next");
      [ simpl; lia | reflexivity | lia | discriminate | reflexivity ].
  - apply (proj1 (proj2 (proj2 (checkUrl_redirect_limit exampleResolver 5
                                  brokenSixthRedirect)))
             (mkProbing HEAD "https://nomanssky.fandom.com/wiki/Next" 5)
             5%nat 302 "https://");
      [ simpl; lia | reflexivity | lia | discriminate | reflexivity ].
  - apply (proj2 (proj2 (proj2 (checkUrl_redirect_limit exampleResolver 5
                                  endlessRedirects)))
             (build "Euclid")).
    vm_compute. reflexivity.
Defined.

(** C2.  A 403 or 405 answer to a HEAD request makes the resolver probe
    the same URL again with GET, the count of redirects unchanged; a
    403 or 405 answer to that GET request is a final invalid verdict;
    a pass that continues either is this fallback, from HEAD, or takes
    a redirect and goes back to HEAD with the count raised by one; so
    the requests of a resolution are a sequence of hops, each probed
    with HEAD and then at most once with GET. *)
Theorem fallback_once_per_hop (resolveUrl : Resolver) (maxRedirects : Z) :
  (forall (st : Probing) (status : Z) (location : option string),
      status = 403 \/ status = 405 -> method st = HEAD ->
      step resolveUrl st (Response status location)
      = Continue (mkProbing GET (currentUrl st) (redirects st)))
  /\ (forall (st : Probing) (status : Z) (location : option string),
        status = 403 \/ status = 405 -> method st = GET ->
        step resolveUrl st (Response status location)
        = Done (mkResult (currentUrl st) false (Some (httpReason status))))
  /\ (forall (st st' : Probing) (last : ProbeOutcome),
        step resolveUrl st last = Continue st' ->
        (method st = HEAD
         /\ st' = mkProbing GET (currentUrl st) (redirects st))
        \/ (method st' = HEAD /\ redirects st' = redirects st + 1))
  /\ (forall (oracle : Oracle) (st : Probing) (k : nat) (status : Z)
             (location : option string),
        redirects st <= maxRedirects -> method st = HEAD ->
        oracle k (request st) = Response status location ->
        status = 403 \/ status = 405 ->
        exists rest : list Request,
          requests (checkUrl_loop resolveUrl maxRedirects oracle st k)
          = mkRequest HEAD (currentUrl st)
              :: mkRequest GET (currentUrl st) :: rest)
  /\ (forall (oracle : Oracle) (url : string),
        HopLog (requests (checkUrl_run resolveUrl maxRedirects oracle url))).
Proof.
  repeat apply conj.
  - intros st status location. apply step_fallback.
  - intros st status location. apply step_refused_again.
  - intros st st' last Hstep.
    apply step_Continue in Hstep
      as [(status & location & _ & _ & Hm & ->)
         | (status & location & next & _ & _ & _ & _ & ->)];
      [ left | right ]; auto.
  - intros oracle st k status location Hle Hm Hlast Hs.
    rewrite checkUrl_loop_eq.
    apply Z.leb_le in Hle. rewrite Hle, Hlast.
    rewrite (step_fallback _ _ _ _ Hs Hm).
    rewrite checkUrl_loop_eq. simpl. rewrite Hle.
    unfold request at 1. rewrite Hm.
    destruct (step resolveUrl _ _); eexists; reflexivity.
  - intros oracle url.
    apply (requests_HopLog resolveUrl maxRedirects oracle
             (mkProbing HEAD url 0) 0%nat).
Qed.

Lemma fallback_once_per_hop_witness :
  step exampleResolver (mkProbing HEAD (build "Euclid") 0) (Response 405 None)
  = Continue (mkProbing GET (build "Euclid") 0)
  /\ step exampleResolver (mkProbing GET (build "Euclid") 0) (Response 403 None)
     = Done (mkResult (build "Euclid") false (Some (httpReason 403)))
  /\ ((method (mkProbing HEAD (build "Euclid") 0) = HEAD
       /\ mkProbing GET (build "Euclid") 0
          = mkProbing GET (currentUrl (mkProbing HEAD (build "Euclid") 0))
              (redirects (mkProbing HEAD (build "Euclid") 0)))
      \/ (method (mkProbing GET (build "Euclid") 0) = HEAD
          /\ redirects (mkProbing GET (build "Euclid") 0)
             = redirects (mkProbing HEAD (build "Euclid") 0) + 1))
  /\ exists rest : list Request,
       requests (checkUrl_loop exampleResolver 5 allRefused
                   (mkProbing HEAD (build "Euclid") 0) 0%nat)
       = mkRequest HEAD (build "Euclid") :: mkRequest GET (build "Euclid")
           :: rest.
Proof.
  pose proof (fallback_once_per_hop exampleResolver 5)
    as (Hhead & Hget & Hcont & Hlog & _).
  split; [ | split; [ | split ] ].
  - apply (Hhead (mkProbing HEAD (build "Euclid") 0) 405 None);
      [ right | ]; reflexivity.
  - apply (Hget (mkProbing GET (build "Euclid") 0) 403 None);
      [ left | ]; reflexivity.
  - apply (Hcont (mkProbing HEAD (build "Euclid") 0)
             (mkProbing GET (build "Euclid") 0) (Response 405 None)).
    reflexivity.
  - apply (Hlog allRefused (mkProbing HEAD (build "Euclid") 0) 0%nat 403 None);
      [ simpl; lia | reflexivity | reflexivity | left; reflexivity ].
Defined.

(** ** Concurrency limiter *)

Lemma without_absent (task : nat) (l : list nat) :
  ~ List.In task l -> pLimit.without task l = l.
Proof.
  unfold pLimit.without.
  induction l as [ | x l IH]; intros Hnot; [ reflexivity | ].
  simpl. destruct (Nat.eqb task x) eqn:Htx; simpl.
  - apply Nat.eqb_eq in Htx. subst x. exfalso. apply Hnot. now left.
  - f_equal. apply IH. intros Hin. apply Hnot. now right.
Qed.

Lemma without_length (task : nat) (l : list nat) :
  List.NoDup l -> List.In task l ->
  S (List.length (pLimit.without task l)) = List.length l.
Proof.
  induction l as [ | x l IH]; intros Hnd Hin; [ destruct Hin | ].
  inversion Hnd as [ | ? ? Hx Hl ]; subst.
  unfold pLimit.without in *. simpl.
  destruct (Nat.eqb task x) eqn:Htx; simpl.
  - apply Nat.eqb_eq in Htx. subst x.
    f_equal. f_equal. now apply without_absent.
  - f_equal. apply IH; [ assumption | ].
    destruct Hin as [-> | Hin]; [ | assumption ].
    rewrite Nat.eqb_refl in Htx. discriminate.
Qed.

Lemma without_incl (task : nat) (l : list nat) :
  List.incl (pLimit.without task l) l.
Proof. intros x Hx. apply List.filter_In in Hx. tauto. Qed.

Lemma without_NoDup (task : nat) (l : list nat) :
  List.NoDup l -> List.NoDup (pLimit.without task l).
Proof. apply List.NoDup_filter. Qed.

Lemma isRunning_In (task : nat) (s : pLimit.State) :
  pLimit.isRunning task s = true <-> List.In task (pLimit.running s).
Proof.
  unfold pLimit.isRunning. rewrite List.existsb_exists. split.
  - intros (x & Hx & Heq). apply Nat.eqb_eq in Heq. now subst.
  - intros Hin. exists task. split; [ assumption | apply Nat.eqb_refl ].
Qed.

Ltac limiter_fields :=
  cbn [pLimit.activeCount pLimit.queue pLimit.running pLimit.started
       pLimit.settled pLimit.submitted].

Lemma NoDup_app_disjoint (l1 l2 : list nat) (a : nat) :
  List.NoDup (l1 ++ l2) -> List.In a l1 -> List.In a l2 -> False.
Proof.
  induction l1 as [ | x l1 IH]; simpl; intros Hnd H1 H2; [ exact H1 | ].
  inversion Hnd as [ | ? ? Hx Hl ]; subst.
  destruct H1 as [-> | H1].
  - apply Hx. apply List.in_app_iff. now right.
  - now apply IH.
Qed.

Section LimiterFacts.

Variable concurrency : Z.

(** [next()] starts the head of the queue when a slot is free. *)
Lemma next_free_slot (s : pLimit.State) (task : nat) (rest : list nat) :
  pLimit.queue s = task :: rest -> pLimit.activeCount s < concurrency ->
  pLimit.next concurrency s
  = pLimit.mkState (pLimit.activeCount s + 1) rest
      (pLimit.running s ++ [task]) (pLimit.started s ++ [task])
      (pLimit.settled s) (pLimit.submitted s).
Proof.
  intros Hq Hlt. unfold pLimit.next. rewrite Hq.
  replace (pLimit.activeCount s >=? concurrency) with false; [ reflexivity | ].
  symmetry. rewrite Z.geb_leb. apply Z.leb_gt. lia.
Qed.

Lemma next_no_slot (s : pLimit.State) :
  concurrency <= pLimit.activeCount s -> pLimit.next concurrency s = s.
Proof.
  intros Hge. unfold pLimit.next. destruct (pLimit.queue s); [ reflexivity | ].
  replace (pLimit.activeCount s >=? concurrency) with true; [ reflexivity | ].
  symmetry. rewrite Z.geb_leb. apply Z.leb_le. lia.
Qed.

Lemma next_empty (s : pLimit.State) :
  pLimit.queue s = [] -> pLimit.next concurrency s = s.
Proof. intros Hq. unfold pLimit.next. now rewrite Hq. Qed.

Lemma limiterInv_init : 0 <= concurrency -> limiterInv concurrency pLimit.init.
Proof.
  intros Hnonneg.
  unfold limiterInv. simpl. repeat split; try lia; try constructor.
  - intros x [].
  - congruence.
Qed.

(** A queued task was not started yet. *)
Lemma queued_not_started (s : pLimit.State) (task : nat) :
  limiterInv concurrency s -> List.In task (pLimit.queue s) ->
  ~ List.In task (pLimit.started s).
Proof.
  intros (_ & _ & Hseq & _) Hq Hs.
  pose proof (List.seq_NoDup (pLimit.submitted s) 0) as Hnd.
  rewrite <- Hseq in Hnd.
  exact (NoDup_app_disjoint _ _ task Hnd Hs Hq).
Qed.

Lemma limiterInv_limit (s : pLimit.State) :
  limiterInv concurrency s -> limiterInv concurrency (pLimit.limit concurrency s).
Proof.
  intros Hinv.
  destruct Hinv as (Hcount & Hle & Hseq & Hnd & Hincl & Hsat).
  unfold pLimit.limit.
  destruct (pLimit.queue s) as [ | head rest] eqn:Hq.
  - destruct (Z_lt_ge_dec (pLimit.activeCount s) concurrency) as [Hlt | Hge].
    + rewrite (next_free_slot _ (pLimit.submitted s) []) by (simpl; auto).
      rewrite List.app_nil_r in Hseq.
      unfold limiterInv. limiter_fields. repeat apply conj.
      * rewrite List.length_app. simpl. lia.
      * lia.
      * rewrite List.app_nil_r, List.seq_S, Hseq. reflexivity.
      * apply List.NoDup_app.
        -- assumption.
        -- repeat constructor. intros [].
        -- intros x Hx [<- | []]. apply Hincl in Hx.
           rewrite Hseq in Hx. apply List.in_seq in Hx. lia.
      * intros x Hx. apply List.in_app_iff in Hx as [Hx | Hx];
          apply List.in_app_iff; [ left; auto | right; exact Hx ].
      * congruence.
    + rewrite next_no_slot by (simpl; lia).
      unfold limiterInv. limiter_fields. repeat apply conj; auto.
      * rewrite List.seq_S, <- Hseq, <- List.app_assoc. reflexivity.
      * intros _. lia.
  - specialize (Hsat ltac:(discriminate)).
    rewrite next_no_slot by (simpl; lia).
    unfold limiterInv. limiter_fields. repeat apply conj; auto.
    rewrite List.seq_S, <- Hseq, <- List.app_assoc. reflexivity.
Qed.

(** The two settle handlers differ only in how they settle the
    promise of the caller. *)
Lemma limiterInv_settle (s : pLimit.State) (task : nat) (fulfilled : bool) :
  limiterInv concurrency s -> List.In task (pLimit.running s) ->
  limiterInv concurrency
    (pLimit.next concurrency
       (pLimit.mkState (pLimit.activeCount s - 1) (pLimit.queue s)
          (pLimit.without task (pLimit.running s)) (pLimit.started s)
          (pLimit.settled s ++ [(task, fulfilled)]) (pLimit.submitted s))).
Proof.
  intros Hinv Hin.
  pose proof (fun t => queued_not_started s t Hinv) as Hfresh.
  destruct Hinv as (Hcount & Hle & Hseq & Hnd & Hincl & Hsat).
  pose proof (without_length task _ Hnd Hin) as Hlen.
  destruct (pLimit.queue s) as [ | head rest] eqn:Hq.
  - rewrite next_empty by reflexivity.
    unfold limiterInv. limiter_fields. repeat apply conj.
    + lia.
    + lia.
    + exact Hseq.
    + now apply without_NoDup.
    + intros x Hx. apply Hincl. now apply (without_incl task).
    + congruence.
  - specialize (Hsat ltac:(discriminate)).
    rewrite (next_free_slot _ head rest) by (simpl; auto; lia).
    unfold limiterInv. limiter_fields. repeat apply conj.
    + rewrite List.length_app. simpl. lia.
    + lia.
    + rewrite <- List.app_assoc. exact Hseq.
    + apply List.NoDup_app.
      * now apply without_NoDup.
      * repeat constructor. intros [].
      * intros x Hx [<- | []]. apply (Hfresh head); [ now left | ].
        apply Hincl. now apply (without_incl task).
    + intros x Hx. apply List.in_app_iff in Hx as [Hx | Hx];
        apply List.in_app_iff; [ left | right; exact Hx ].
      apply Hincl. now apply (without_incl task).
    + intros _. lia.
Qed.

Lemma limiterInv_exec (s s' : pLimit.State) (e : pLimit.Event) :
  limiterInv concurrency s -> pLimit.exec concurrency s e = Some s' ->
  limiterInv concurrency s'.
Proof.
  intros Hinv. destruct e as [ | task | task ]; simpl.
  - intros [= <-]. now apply limiterInv_limit.
  - destruct (pLimit.isRunning task s) eqn:Hrun; [ | discriminate ].
    intros [= <-]. apply isRunning_In in Hrun.
    now apply limiterInv_settle.
  - destruct (pLimit.isRunning task s) eqn:Hrun; [ | discriminate ].
    intros [= <-]. apply isRunning_In in Hrun.
    now apply limiterInv_settle.
Qed.

Lemma limiterInv_run (events : list pLimit.Event) (s s' : pLimit.State) :
  limiterInv concurrency s -> pLimit.run concurrency events s = Some s' ->
  limiterInv concurrency s'.
Proof.
  revert s. induction events as [ | e events IH]; intros s Hinv; simpl.
  - now intros [= <-].
  - destruct (pLimit.exec concurrency s e) as [s1 | ] eqn:He;
      [ | discriminate ].
    apply IH. now apply (limiterInv_exec s s1 e).
Qed.

(** What a settle handler does to a state of the invariant: the slot is
    freed and, when a task waits, handed to the oldest one at once. *)
Lemma settle_admits_next (s : pLimit.State) (task : nat) (fulfilled : bool) :
  limiterInv concurrency s -> List.In task (pLimit.running s) ->
  let s' :=
    pLimit.next concurrency
      (pLimit.mkState (pLimit.activeCount s - 1) (pLimit.queue s)
         (pLimit.without task (pLimit.running s)) (pLimit.started s)
         (pLimit.settled s ++ [(task, fulfilled)]) (pLimit.submitted s)) in
  pLimit.activeCount s'
  = pLimit.activeCount s - 1 + Z.of_nat (List.length (firstn 1 (pLimit.queue s)))
  /\ pLimit.started s' = pLimit.started s ++ firstn 1 (pLimit.queue s)
  /\ pLimit.queue s' = skipn 1 (pLimit.queue s)
  /\ pLimit.settled s' = pLimit.settled s ++ [(task, fulfilled)].
Proof.
  intros Hinv Hin.
  destruct Hinv as (Hcount & Hle & Hseq & Hnd & Hincl & Hsat).
  destruct (pLimit.queue s) as [ | head rest] eqn:Hq.
  - rewrite next_empty by reflexivity. limiter_fields. simpl.
    rewrite List.app_nil_r. repeat split; lia.
  - specialize (Hsat ltac:(discriminate)).
    rewrite (next_free_slot _ head rest) by (simpl; auto; lia).
    limiter_fields. simpl. repeat split; lia.
Qed.

Lemma started_grows_exec (s s' : pLimit.State) (e : pLimit.Event) :
  pLimit.exec concurrency s e = Some s' ->
  List.incl (pLimit.started s) (pLimit.started s').
Proof.
  assert (Hnext : forall s0, List.incl (pLimit.started s0)
                               (pLimit.started (pLimit.next concurrency s0))).
  { intros s0. unfold pLimit.next.
    destruct (pLimit.queue s0); [ apply List.incl_refl | ].
    destruct (pLimit.activeCount s0 >=? concurrency);
      [ apply List.incl_refl | ].
    limiter_fields. apply List.incl_appl, List.incl_refl. }
  destruct e as [ | task | task ]; simpl.
  - intros [= <-]. apply (Hnext (pLimit.mkState _ _ _ _ _ _)).
  - destruct (pLimit.isRunning task s); [ | discriminate ].
    intros [= <-]. apply (Hnext (pLimit.mkState _ _ _ _ _ _)).
  - destruct (pLimit.isRunning task s); [ | discriminate ].
    intros [= <-]. apply (Hnext (pLimit.mkState _ _ _ _ _ _)).
Qed.

Lemma started_grows_run (events : list pLimit.Event) (s s' : pLimit.State) :
  pLimit.run concurrency events s = Some s' ->
  List.incl (pLimit.started s) (pLimit.started s').
Proof.
  revert s. induction events as [ | e events IH]; intros s; simpl.
  - intros [= <-]. apply List.incl_refl.
  - destruct (pLimit.exec concurrency s e) as [s1 | ] eqn:He;
      [ | discriminate ].
    intros Hrun.
    apply (List.incl_tran (started_grows_exec s s1 e He) (IH s1 Hrun)).
Qed.

(** A task that waits at position [k] of the queue is started by the
    time [k + 1] running tasks have settled. *)
Lemma queued_task_starts (more : list pLimit.Event) (s s' : pLimit.State)
  (k task : nat) :
  limiterInv concurrency s ->
  nth_error (pLimit.queue s) k = Some task ->
  pLimit.run concurrency more s = Some s' ->
  (k < pLimit.completions more)%nat ->
  List.In task (pLimit.started s').
Proof.
  revert s k. induction more as [ | e more IH]; intros s k Hinv Hk; simpl.
  - unfold pLimit.completions. simpl. lia.
  - destruct (pLimit.exec concurrency s e) as [s1 | ] eqn:He;
      [ | discriminate ].
    pose proof (limiterInv_exec s s1 e Hinv He) as Hinv1.
    intros Hrun Hlt.
    assert (Hne : pLimit.queue s <> [])
      by (intros Hq; rewrite Hq in Hk; destruct k; discriminate).
    destruct e as [ | running | running ]; simpl in He.
    + injection He as <-.
      apply (IH _ k Hinv1); [ | assumption | exact Hlt ].
      destruct Hinv as (_ & _ & _ & _ & _ & Hsat).
      unfold pLimit.limit. rewrite next_no_slot
        by (limiter_fields; rewrite (Hsat Hne); lia).
      limiter_fields. rewrite List.nth_error_app1; [ assumption | ].
      apply List.nth_error_Some. congruence.
    + destruct (pLimit.isRunning running s) eqn:Hrunning; [ | discriminate ].
      injection He as <-. apply isRunning_In in Hrunning.
      pose proof (settle_admits_next s running true Hinv Hrunning)
        as (_ & Hstarted & Hqueue & _).
      fold (pLimit.onFulfilled concurrency running s) in *.
      destruct (pLimit.queue s) as [ | head rest] eqn:Hq; [ congruence | ].
      simpl in Hstarted, Hqueue.
      destruct k as [ | k].
      * injection Hk as ->.
        apply (started_grows_run more _ s' Hrun).
        rewrite Hstarted. apply List.in_app_iff. right. now left.
      * apply (IH _ k Hinv1); [ | assumption | ].
        -- rewrite Hqueue. exact Hk.
        -- unfold pLimit.completions in *. simpl in Hlt. lia.
    + destruct (pLimit.isRunning running s) eqn:Hrunning; [ | discriminate ].
      injection He as <-. apply isRunning_In in Hrunning.
      pose proof (settle_admits_next s running false Hinv Hrunning)
        as (_ & Hstarted & Hqueue & _).
      fold (pLimit.onRejected concurrency running s) in *.
      destruct (pLimit.queue s) as [ | head rest] eqn:Hq; [ congruence | ].
      simpl in Hstarted, Hqueue.
      destruct k as [ | k].
      * injection Hk as ->.
        apply (started_grows_run more _ s' Hrun).
        rewrite Hstarted. apply List.in_app_iff. right. now left.
      * apply (IH _ k Hinv1); [ | assumption | ].
        -- rewrite Hqueue. exact Hk.
        -- unfold pLimit.completions in *. simpl in Hlt. lia.
Qed.

End LimiterFacts.

(** C4.  With a positive limit, in every state that the limiter reaches:
    the number of running tasks is the counter and does not exceed the
    limit; the tasks started so far, followed by the queue, are the
    submissions in their order, so tasks are started first come, first
    served; the settling of any running task, fulfilled or rejected,
    is handled, lowers the counter and hands the slot to the oldest
    waiting task; a task waits only while some task is running; and a
    task at position [k] of the queue is started once [k + 1] tasks
    have settled. *)
Theorem pLimit_bounded_fifo_live (concurrency : Z)
  (events : list pLimit.Event) (s : pLimit.State) :
  0 < concurrency ->
  pLimit.run concurrency events pLimit.init = Some s ->
  (Z.of_nat (List.length (pLimit.running s)) = pLimit.activeCount s
   /\ pLimit.activeCount s <= concurrency)
  /\ pLimit.started s ++ pLimit.queue s = seq 0 (pLimit.submitted s)
  /\ (forall (task : nat) (e : pLimit.Event),
        List.In task (pLimit.running s) ->
        e = pLimit.Fulfil task \/ e = pLimit.Reject task ->
        exists s' : pLimit.State,
          pLimit.exec concurrency s e = Some s'
          /\ pLimit.activeCount s'
             = pLimit.activeCount s - 1
               + Z.of_nat (List.length (firstn 1 (pLimit.queue s)))
          /\ pLimit.started s' = pLimit.started s ++ firstn 1 (pLimit.queue s)
          /\ pLimit.queue s' = skipn 1 (pLimit.queue s))
  /\ (pLimit.queue s <> [] -> pLimit.running s <> [])
  /\ (forall (k task : nat) (more : list pLimit.Event) (s' : pLimit.State),
        nth_error (pLimit.queue s) k = Some task ->
        pLimit.run concurrency more s = Some s' ->
        (k < pLimit.completions more)%nat ->
        List.In task (pLimit.started s')).
Proof.
  intros Hpos Hrun.
  pose proof (limiterInv_run concurrency events _ s
                (limiterInv_init concurrency ltac:(lia)) Hrun) as Hinv.
  pose proof Hinv as (Hcount & Hle & Hseq & Hnd & Hincl & Hsat).
  repeat apply conj.
  - now symmetry.
  - exact Hle.
  - exact Hseq.
  - intros task e Hin He.
    pose proof (proj2 (isRunning_In task s) Hin) as Hrunning.
    destruct He as [-> | ->]; simpl; rewrite Hrunning; eexists;
      (split; [ reflexivity | ]).
    + pose proof (settle_admits_next concurrency s task true Hinv Hin)
        as (H1 & H2 & H3 & _).
      auto.
    + pose proof (settle_admits_next concurrency s task false Hinv Hin)
        as (H1 & H2 & H3 & _).
      auto.
  - intros Hq Hr. specialize (Hsat Hq). rewrite Hr in Hcount.
    simpl in Hcount. lia.
  - intros k task more s' Hk Hmore Hlt.
    exact (queued_task_starts concurrency more s s' k task
             Hinv Hk Hmore Hlt).
Qed.

Lemma pLimit_bounded_fifo_live_witness :
  let s := pLimit.mkState 2 [2%nat] [0%nat; 1%nat] [0%nat; 1%nat] [] 3 in
  (Z.of_nat (List.length (pLimit.running s)) = pLimit.activeCount s
   /\ pLimit.activeCount s <= 2)
  /\ pLimit.started s ++ pLimit.queue s = seq 0 (pLimit.submitted s)
  /\ (exists s' : pLimit.State,
        pLimit.exec 2 s (pLimit.Reject 0) = Some s'
        /\ pLimit.activeCount s' = 2
        /\ pLimit.started s' = [0%nat; 1%nat; 2%nat]
        /\ pLimit.queue s' = [])
  /\ List.In 2%nat
       (pLimit.started
          (pLimit.mkState 2 [] [1%nat; 2%nat] [0%nat; 1%nat; 2%nat]
             [(0%nat, true)] 3)).
Proof.
  intros s.
  pose proof (pLimit_bounded_fifo_live 2
                [pLimit.Submit; pLimit.Submit; pLimit.Submit] s
                ltac:(lia) eq_refl)
    as (Hbound & Hfifo & Hsettle & _ & Hlive).
  split; [ exact Hbound | ].
  split; [ exact Hfifo | ].
  split.
  - exact (Hsettle 0%nat (pLimit.Reject 0)
             (or_introl eq_refl) (or_intror eq_refl)).
  - exact (Hlive 0%nat 2%nat [pLimit.Fulfil 0] _ eq_refl eq_refl
             (Nat.lt_0_succ 0)).
Defined.

(** ** Start-time throttle *)

Ltac throttle_fields :=
  cbn [makeStartThrottler.lastStart makeStartThrottler.chain
       makeStartThrottler.clock makeStartThrottler.granted
       makeStartThrottler.calls].

Lemma spaced_snoc (gap x : Z) (times : list Z) :
  spaced gap times -> Forall (fun t => t + gap <= x) times ->
  spaced gap (times ++ [x]).
Proof.
  induction times as [ | t times IH]; simpl; intros Hsp Hall.
  - split; [ constructor | exact I ].
  - destruct Hsp as [Hlater Hsp].
    inversion Hall as [ | ? ? Ht Hrest ]; subst.
    split; [ | now apply IH ].
    apply List.Forall_app. split; [ assumption | ].
    constructor; [ assumption | constructor ].
Qed.

Lemma spaced_nth (gap : Z) (times : list Z) (i j : nat) (ti tj : Z) :
  spaced gap times -> (i < j)%nat ->
  nth_error times i = Some ti -> nth_error times j = Some tj ->
  ti + gap <= tj.
Proof.
  revert i j. induction times as [ | t times IH]; intros i j Hsp Hij Hi Hj.
  - destruct i; discriminate.
  - destruct Hsp as [Hlater Hsp].
    destruct j as [ | j]; [ lia | ]. simpl in Hj.
    destruct i as [ | i].
    + injection Hi as ->.
      apply List.nth_error_In in Hj.
      rewrite List.Forall_forall in Hlater. now apply Hlater.
    + simpl in Hi. apply (IH i j); auto. lia.
Qed.

Section ThrottleFacts.

Variable minIntervalMs : Z.

(** A turn starts no earlier than [minIntervalMs] after the previous
    start, and no earlier than the clock read on entry. *)
Lemma turn_start (elapsed jitter late : N)
  (s s' : makeStartThrottler.State) :
  makeStartThrottler.turn minIntervalMs elapsed jitter late s = Some s' ->
  makeStartThrottler.lastStart s + minIntervalMs
  <= makeStartThrottler.lastStart s'
  /\ makeStartThrottler.clock s <= makeStartThrottler.lastStart s'
  /\ makeStartThrottler.clock s' = makeStartThrottler.lastStart s'
  /\ exists caller rest,
       makeStartThrottler.chain s = caller :: rest
       /\ makeStartThrottler.chain s' = rest
       /\ makeStartThrottler.calls s' = makeStartThrottler.calls s
       /\ makeStartThrottler.granted s'
          = makeStartThrottler.granted s
            ++ [(caller, makeStartThrottler.lastStart s')].
Proof.
  unfold makeStartThrottler.turn.
  destruct (makeStartThrottler.chain s) as [ | caller rest];
    [ discriminate | ].
  intros [= <-]. throttle_fields.
  repeat apply conj; try (exists caller, rest; auto).
  - destruct (0 <? _) eqn:Hwait;
      [ apply Z.ltb_lt in Hwait | apply Z.ltb_ge in Hwait ]; lia.
  - destruct (0 <? _) eqn:Hwait;
      [ apply Z.ltb_lt in Hwait | apply Z.ltb_ge in Hwait ]; lia.
  - reflexivity.
Qed.

Lemma throttleInv_init (t0 : Z) :
  throttleInv minIntervalMs (makeStartThrottler.init t0).
Proof.
  unfold throttleInv. simpl. repeat split; try constructor. congruence.
Qed.

Lemma throttleInv_exec (s s' : makeStartThrottler.State)
  (e : makeStartThrottler.Event) :
  throttleInv minIntervalMs s ->
  makeStartThrottler.exec minIntervalMs s e = Some s' ->
  throttleInv minIntervalMs s'.
Proof.
  intros (Hfifo & Hsp & Hlast & Hclock).
  destruct e as [ | elapsed jitter late ]; simpl.
  - intros [= <-]. unfold throttleInv, makeStartThrottler.waitForTurn.
    throttle_fields. repeat apply conj; auto.
    rewrite List.seq_S, <- Hfifo, <- List.app_assoc. reflexivity.
  - intros Hturn.
    apply turn_start in Hturn
      as (Hgap & Hnow & Hclock' & caller & rest & Hchain & Hrest & Hcalls
          & Hgranted).
    unfold throttleInv. rewrite Hrest, Hcalls, Hgranted.
    repeat apply conj.
    + rewrite List.map_app, <- List.app_assoc. simpl.
      rewrite <- Hchain. exact Hfifo.
    + rewrite List.map_app. simpl. apply spaced_snoc; [ assumption | ].
      eapply List.Forall_impl; [ | exact Hlast ].
      simpl. intros t Ht. lia.
    + rewrite List.map_app. simpl.
      apply List.Forall_app. split; [ | repeat constructor; lia ].
      destruct (makeStartThrottler.granted s) as [ | g gs] eqn:Hg;
        [ constructor | ].
      specialize (Hclock ltac:(discriminate)).
      eapply List.Forall_impl; [ | exact Hlast ].
      simpl. intros t Ht. lia.
    + intros _. exact Hclock'.
Qed.

Lemma throttleInv_run (events : list makeStartThrottler.Event)
  (s s' : makeStartThrottler.State) :
  throttleInv minIntervalMs s ->
  makeStartThrottler.run minIntervalMs events s = Some s' ->
  throttleInv minIntervalMs s'.
Proof.
  revert s. induction events as [ | e events IH]; intros s Hinv; simpl.
  - now intros [= <-].
  - destruct (makeStartThrottler.exec minIntervalMs s e) as [s1 | ] eqn:He;
      [ | discriminate ].
    apply IH. now apply (throttleInv_exec s s1 e).
Qed.

End ThrottleFacts.

(** C3.  In every run of the throttle, whatever the calls and the
    timing: any two start times it grants, taken in the order of the
    grants, are at least [minIntervalMs] apart; each turn starts at
    least [minIntervalMs] after the start before it, and a larger
    jitter never gives an earlier start; and the turns are granted in
    the order of the calls. *)
Theorem throttle_spacing_fifo (minIntervalMs t0 : Z)
  (events : list makeStartThrottler.Event) (s : makeStartThrottler.State) :
  makeStartThrottler.run minIntervalMs events (makeStartThrottler.init t0)
  = Some s ->
  (forall (i j : nat) (ti tj : Z), (i < j)%nat ->
      nth_error (map snd (makeStartThrottler.granted s)) i = Some ti ->
      nth_error (map snd (makeStartThrottler.granted s)) j = Some tj ->
      ti + minIntervalMs <= tj)
  /\ (forall (elapsed jitter late : N) (s1 s2 : makeStartThrottler.State),
        makeStartThrottler.turn minIntervalMs elapsed jitter late s = Some s1 ->
        makeStartThrottler.turn minIntervalMs elapsed 0 late s = Some s2 ->
        makeStartThrottler.lastStart s + minIntervalMs
        <= makeStartThrottler.lastStart s2
        /\ makeStartThrottler.lastStart s2 <= makeStartThrottler.lastStart s1)
  /\ map fst (makeStartThrottler.granted s) ++ makeStartThrottler.chain s
     = seq 0 (makeStartThrottler.calls s).
Proof.
  intros Hrun.
  pose proof (throttleInv_run minIntervalMs events _ s
                (throttleInv_init minIntervalMs t0) Hrun)
    as (Hfifo & Hsp & _ & _).
  split; [ | split ].
  - intros i j ti tj. now apply spaced_nth.
  - intros elapsed jitter late s1 s2 H1 H2. split.
    + pose proof (turn_start minIntervalMs elapsed 0 late s s2 H2)
        as (Hgap & _).
      exact Hgap.
    + revert H1 H2. unfold makeStartThrottler.turn.
      destruct (makeStartThrottler.chain s); [ discriminate | ].
      intros [= <-] [= <-]. throttle_fields.
      destruct (0 <? _); lia.
  - exact Hfifo.
Qed.

Lemma throttle_spacing_fifo_witness :
  let s := makeStartThrottler.mkState 1305 [] 1305
             [(0%nat, 1000); (1%nat, 1305)] 2 in
  1000 + 300 <= 1305
  /\ map fst (makeStartThrottler.granted s) ++ makeStartThrottler.chain s
     = seq 0 (makeStartThrottler.calls s).
Proof.
  intros s.
  pose proof (throttle_spacing_fifo 300 1000
                [makeStartThrottler.Call; makeStartThrottler.Call;
                 makeStartThrottler.Turn 0 7 0;
                 makeStartThrottler.Turn 100 3 2] s eq_refl)
    as (Hgap & _ & Hfifo).
  split; [ | exact Hfifo ].
  exact (Hgap 0%nat 1%nat 1000 1305 (Nat.lt_0_succ 0) eq_refl eq_refl).
Defined.

(** ** Batch scheduler and reporter *)




Lemma entry_reason (g : Galaxy) (name : JsValue) (url : string)
  (r : CheckResult) :
  get "reason" (entry g name url r)
  = match r_reason r with Some text => JStr text | None => JUndefined end.
Proof. unfold entry, ownProperties, get. destruct (r_reason r); reflexivity. Qed.


Lemma js_or_again (v : JsValue) :
  js_or (js_or v (JStr EmptyString)) (JStr EmptyString)
  = js_or v (JStr EmptyString).
Proof.
  unfold js_or. destruct (truthy v) eqn:Hv; [ now rewrite Hv | reflexivity ].
Qed.

(** The empty text takes the place of a missing name before the URL is
    built, and once more inside the builder. *)
Lemma prepare_eq (g : Galaxy) :
  prepare g
  = match js_or (g_name g) (JStr EmptyString) with
    | JStr s => Normal (JStr s, build s)
    | _ => Throw TypeError
    end.
Proof.
  unfold prepare, buildUrlFromName. rewrite js_or_again.
  destruct (js_or (g_name g) (JStr EmptyString)); reflexivity.
Qed.

Lemma prepareAll_app (l1 l2 : list (nat * Galaxy)) :
  prepareAll (l1 ++ l2)
  = match prepareAll l1 with
    | Throw e => Throw e
    | Normal tasks1 =>
        match prepareAll l2 with
        | Throw e => Throw e
        | Normal tasks2 => Normal (tasks1 ++ tasks2)
        end
    end.
Proof.
  induction l1 as [ | [i g] l1 IH]; simpl.
  - destruct (prepareAll l2); reflexivity.
  - destruct (prepare g); [ | reflexivity ].
    rewrite IH. destruct (prepareAll l1); [ | reflexivity ].
    destruct (prepareAll l2); reflexivity.
Qed.

(** The tasks built from a list of records pair each record with its
    name and URL. *)
Lemma prepareAll_nth (l : list (nat * Galaxy))
  (tasks : list (nat * Galaxy * (JsValue * string))) :
  prepareAll l = Normal tasks ->
  List.length tasks = List.length l
  /\ forall (k i : nat) (g : Galaxy), nth_error l k = Some (i, g) ->
       exists nu, prepare g = Normal nu /\ nth_error tasks k = Some (i, g, nu).
Proof.
  revert tasks. induction l as [ | [i0 g0] l IH]; simpl; intros tasks.
  - intros [= <-]. split; [ reflexivity | ]. intros [ | k]; discriminate.
  - destruct (prepare g0) as [nu0 | ] eqn:Hp; [ | discriminate ].
    destruct (prepareAll l) as [rest | ]; [ | discriminate ].
    intros [= <-]. destruct (IH rest eq_refl) as [Hlen Hnth].
    split; [ simpl; congruence | ].
    intros [ | k] i g; simpl.
    + intros [= <- <-]. now exists nu0.
    + apply Hnth.
Qed.


Lemma prepareAll_total (l : list (nat * Galaxy)) :
  Forall (fun ig => hasTextName (snd ig) = true) l ->
  exists tasks, prepareAll l = Normal tasks.
Proof.
  induction l as [ | [i g] l IH]; intros Hall; [ now exists [] | ].
  inversion Hall as [ | ? ? Hg Hl ]; subst. simpl in Hg.
  destruct (IH Hl) as [rest Hrest]. simpl. rewrite Hrest, prepare_eq.
  unfold hasTextName in Hg.
  destruct (js_or (g_name g) (JStr EmptyString));
    try discriminate; eexists; reflexivity.
Qed.

Lemma slice_batch {A : Type} (l : list A) (i b : Z) :
  0 <= i -> 0 < b ->
  slice l i (i + b) = firstn (Z.to_nat b) (skipn (Z.to_nat i) l).
Proof.
  intros Hi Hb. unfold slice.
  replace (i <? 0) with false by (symmetry; apply Z.ltb_ge; lia).
  replace (i + b <? 0) with false by (symmetry; apply Z.ltb_ge; lia).
  set (len := Z.of_nat (List.length l)).
  destruct (Z_le_gt_dec (i + b) len) as [Hin | Hout].
  - rewrite !Z.min_l by lia. f_equal. f_equal. lia.
  - rewrite (Z.min_r (i + b)) by lia.
    destruct (Z_le_gt_dec i len) as [Hle | Hgt].
    + rewrite Z.min_l by lia.
      rewrite !List.firstn_all2; [ reflexivity | | ];
        rewrite List.length_skipn; subst len; lia.
    + rewrite Z.min_r by lia. rewrite Z.sub_diag. simpl.
      rewrite (List.skipn_all2 (n := Z.to_nat i)) by (subst len; lia).
      now rewrite List.firstn_nil.
Qed.

Lemma progressValues_app (a b : list Output) :
  progressValues (a ++ b) = progressValues a ++ progressValues b.
Proof.
  induction a as [ | o a IH]; [ reflexivity | ].
  destruct o; simpl; now rewrite IH.
Qed.

Lemma nth_combine_seq {A : Type} (start : nat) (l : list A) (i : nat) (a : A) :
  nth_error l i = Some a ->
  nth_error (combine (seq start (List.length l)) l) i = Some ((start + i)%nat, a).
Proof.
  revert start i. induction l as [ | a0 l IH]; intros start [ | i]; simpl;
    try discriminate.
  - intros [= <-]. f_equal. f_equal. lia.
  - intros Hi. rewrite (IH (S start) i Hi). f_equal. f_equal. lia.
Qed.

Section MainFacts.

Variable resolveUrl : Resolver.
Variable cfg : Config.
Variable isTTY : bool.
Variable net : nat -> Oracle.
Variable galaxies : list Galaxy.

Local Abbreviation settleEach :=
  (fold_left (fun st task => settleTask resolveUrl cfg isTTY net galaxies task st)).
Local Abbreviation settleAll := (settleBatch resolveUrl cfg isTTY net galaxies).

Lemma length_indexed : List.length (indexed galaxies) = List.length galaxies.
Proof.
  unfold indexed. rewrite List.length_combine, List.length_seq. lia.
Qed.

Lemma nth_indexed (i : nat) (g : Galaxy) :
  nth_error galaxies i = Some g -> nth_error (indexed galaxies) i = Some (i, g).
Proof. apply (nth_combine_seq 0). Qed.

Lemma indexed_textual :
  Forall (fun g => hasTextName g = true) galaxies ->
  Forall (fun ig => hasTextName (snd ig) = true) (indexed galaxies).
Proof.
  unfold indexed. generalize 0%nat as start.
  induction galaxies as [ | g0 l IH]; intros start Hall; simpl;
    [ constructor | ].
  inversion Hall; subst. constructor; [ assumption | now apply IH ].
Qed.

(** What the callbacks of a list of tasks do to the variables of
    [main]: they count and print, and leave [results] alone. *)
Lemma settleEach_spec (tasks : list (nat * Galaxy * (JsValue * string)))
  (st : Run) :
  completed (settleEach tasks st)
  = completed st + Z.of_nat (List.length tasks)
  /\ results (settleEach tasks st) = results st.
Proof.
  revert st. induction tasks as [ | [[i g] [name url]] tasks IH]; intros st.
  - simpl. split; [ lia | reflexivity ].
  - change (settleEach ((i, g, (name, url)) :: tasks) st)
      with (settleEach tasks (settleTask resolveUrl cfg isTTY net galaxies
                                (i, g, (name, url)) st)).
    destruct (IH (settleTask resolveUrl cfg isTTY net galaxies
                    (i, g, (name, url)) st)) as [Hc Hr].
    rewrite Hc, Hr. simpl. split; [ lia | reflexivity ].
Qed.

(** The counter and the progress lines depend on how many tasks have
    settled, not on which ones nor in which order. *)
Lemma settleEach_any_order
  (tasks tasks' : list (nat * Galaxy * (JsValue * string))) (st st' : Run) :
  List.length tasks = List.length tasks' ->
  completed st = completed st' -> output st = output st' ->
  completed (settleEach tasks st) = completed (settleEach tasks' st')
  /\ output (settleEach tasks st) = output (settleEach tasks' st').
Proof.
  revert tasks' st st'.
  induction tasks as [ | [[i g] [name url]] tasks IH];
    intros [ | [[i' g'] [name' url']] tasks'] st st' Hlen Hc Ho;
    try discriminate; [ now split | ].
  change (settleEach ((i, g, (name, url)) :: tasks) st)
    with (settleEach tasks (settleTask resolveUrl cfg isTTY net galaxies
                              (i, g, (name, url)) st)).
  change (settleEach ((i', g', (name', url')) :: tasks') st')
    with (settleEach tasks' (settleTask resolveUrl cfg isTTY net galaxies
                               (i', g', (name', url')) st')).
  apply IH; [ now injection Hlen | simpl; congruence | simpl; congruence ].
Qed.

Lemma settleEach_any_results (tasks : list (nat * Galaxy * (JsValue * string)))
  (st : Run) (rs : list (gmap string JsValue)) :
  settleEach tasks (mkRun (completed st) rs (output st) (network st))
  = mkRun (completed (settleEach tasks st)) rs
      (output (settleEach tasks st)) (network (settleEach tasks st)).
Proof.
  revert st. induction tasks as [ | [[i g] [name url]] tasks IH]; intros st;
    [ reflexivity | ].
  change (settleEach ((i, g, (name, url)) :: tasks) ?s)
    with (settleEach tasks (settleTask resolveUrl cfg isTTY net galaxies
                              (i, g, (name, url)) s)).
  rewrite <- IH. reflexivity.
Qed.

Lemma settleAll_nil (st : Run) : settleAll [] st = st.
Proof.
  destruct st. unfold settleBatch. simpl. now rewrite List.app_nil_r.
Qed.

(** Batches settled one after the other, or all tasks at once. *)
Lemma settleAll_app (tasks1 tasks2 : list (nat * Galaxy * (JsValue * string)))
  (st : Run) :
  settleAll tasks2 (settleAll tasks1 st) = settleAll (tasks1 ++ tasks2) st.
Proof.
  unfold settleBatch. cbv zeta.
  rewrite settleEach_any_results. cbn [completed results output network].
  rewrite List.fold_left_app, List.map_app, List.app_assoc.
  destruct (settleEach_spec tasks2 (settleEach tasks1 st)) as [_ ->].
  reflexivity.
Qed.

(** What settling a list of tasks does to the variables of [main]. *)
Lemma settleAll_spec (tasks : list (nat * Galaxy * (JsValue * string)))
  (st : Run) :
  completed (settleAll tasks st)
  = completed st + Z.of_nat (List.length tasks)
  /\ results (settleAll tasks st)
     = results st ++ map (taskEntry resolveUrl cfg net) tasks.
Proof.
  unfold settleBatch. cbn [completed results].
  destruct (settleEach_spec tasks st) as [-> ->]. split; reflexivity.
Qed.

Lemma settled_from_start (tasks : list (nat * Galaxy * (JsValue * string))) :
  completed (settleAll tasks (initialRun galaxies))
  = Z.of_nat (List.length tasks)
  /\ results (settleAll tasks (initialRun galaxies))
     = map (taskEntry resolveUrl cfg net) tasks.
Proof.
  destruct (settleAll_spec tasks (initialRun galaxies)) as [-> ->].
  split; reflexivity.
Qed.



Hypothesis batch_pos : 0 < BATCH_SIZE cfg.
Hypothesis slots_pos : 0 < MAX_CONCURRENCY cfg.

Lemma runBatch_settles (batch : list (nat * Galaxy))
  (tasks : list (nat * Galaxy * (JsValue * string))) (st : Run) :
  prepareAll batch = Normal tasks ->
  runBatch resolveUrl cfg isTTY net galaxies batch st
  = Some (Settled (settleAll tasks st)).
Proof.
  intros Hp. unfold runBatch. rewrite Hp.
  destruct tasks; [ now rewrite settleAll_nil | ].
  replace (0 <? MAX_CONCURRENCY cfg) with true; [ reflexivity | ].
  symmetry. now apply Z.ltb_lt.
Qed.

(** With a positive batch size and a free slot, the batch loop ends
    within [total] batches: it settles with every task settled in
    order, or it is rejected by the first record whose URL cannot be
    built. *)
Lemma batches_spec (fuel : nat) (i : Z) (st : Run) :
  0 <= i -> total galaxies - i <= Z.of_nat fuel ->
  match prepareAll (skipn (Z.to_nat i) (indexed galaxies)) with
  | Normal tasks =>
      batches resolveUrl cfg isTTY net galaxies fuel i st
      = Some (Settled (settleAll tasks st))
  | Throw e =>
      exists st', batches resolveUrl cfg isTTY net galaxies fuel i st
                  = Some (Rejected e st')
  end.
Proof.
  revert i st.
  assert (Hend : forall i, total galaxies <= i -> 0 <= i ->
            skipn (Z.to_nat i) (indexed galaxies) = []).
  { intros i Hge Hi. apply List.skipn_all2. rewrite length_indexed.
    unfold total in Hge. lia. }
  induction fuel as [ | fuel IH]; intros i st Hi Hfuel; simpl.
  - replace (i <? total galaxies) with false
      by (symmetry; apply Z.ltb_ge; lia).
    rewrite Hend by lia. simpl. now rewrite settleAll_nil.
  - destruct (i <? total galaxies) eqn:Hlt.
    + apply Z.ltb_lt in Hlt.
      rewrite slice_batch by assumption.
      pose proof (prepareAll_app
                    (firstn (Z.to_nat (BATCH_SIZE cfg))
                       (skipn (Z.to_nat i) (indexed galaxies)))
                    (skipn (Z.to_nat (BATCH_SIZE cfg))
                       (skipn (Z.to_nat i) (indexed galaxies)))) as Happ.
      rewrite List.firstn_skipn, List.skipn_skipn in Happ.
      replace (Z.to_nat (BATCH_SIZE cfg) + Z.to_nat i)%nat
        with (Z.to_nat (i + BATCH_SIZE cfg)) in Happ by lia.
      rewrite Happ. clear Happ.
      destruct (prepareAll (firstn _ _)) as [tasks1 | e] eqn:Hbatch.
      * rewrite (runBatch_settles _ tasks1 st Hbatch).
        specialize (IH (i + BATCH_SIZE cfg) (settleAll tasks1 st)
                      ltac:(lia) ltac:(lia)).
        destruct (prepareAll (skipn _ _)) as [tasks2 | e].
        -- rewrite IH. now rewrite settleAll_app.
        -- exact IH.
      * unfold runBatch. rewrite Hbatch. now exists st.
    + apply Z.ltb_ge in Hlt. rewrite Hend by lia. simpl.
      now rewrite settleAll_nil.
Qed.

End MainFacts.



Lemma progressValues_invalidLines (l : list (gmap string JsValue)) :
  progressValues (map invalidLine l) = [].
Proof. induction l; simpl; auto. Qed.

(** The report keeps the state and adds lines that are not progress
    lines; the exit status is 0 when no result is invalid, else 1. *)
Lemma report_spec (st : Run) :
  completed (snd (report st)) = completed st
  /\ results (snd (report st)) = results st
  /\ network (snd (report st)) = network st
  /\ progressValues (output (snd (report st))) = progressValues (output st)
  /\ ((fst (report st) = 0
       /\ Forall (fun r => isInvalid r = false) (results st))
      \/ (fst (report st) = 1
          /\ Exists (fun r => isInvalid r = true) (results st))).
Proof.
  unfold report.
  destruct (List.filter isInvalid (results st)) as [ | r invalid] eqn:Hf.
  - simpl. repeat split; auto.
    + rewrite progressValues_app. simpl. now rewrite List.app_nil_r.
    + left. split; [ reflexivity | ].
      apply List.Forall_forall. intros r Hr.
      destruct (isInvalid r) eqn:Hinv; [ | reflexivity ].
      assert (Hin : List.In r (List.filter isInvalid (results st)))
        by (apply List.filter_In; auto).
      rewrite Hf in Hin. destruct Hin.
  - replace (negb (Z.of_nat (List.length (r :: invalid)) =? 0)) with true
      by (simpl List.length; symmetry; apply negb_true_iff, Z.eqb_neq; lia).
    cbn [fst snd completed results network output].
    repeat split; auto.
    + rewrite !progressValues_app, progressValues_invalidLines.
      cbn [progressValues List.app].
      destruct (50 <? _); simpl; now rewrite List.app_nil_r.
    + right. split; [ reflexivity | ].
      apply List.Exists_exists. exists r.
      assert (Hin : List.In r (List.filter isInvalid (results st)))
        by (rewrite Hf; now left).
      apply List.filter_In in Hin. exact Hin.
Qed.


Section MainRuns.

Variable resolveUrl : Resolver.
Variable cfg : Config.
Variable isTTY : bool.
Variable net : nat -> Oracle.
Variable galaxies : list Galaxy.
Variable fuel : nat.

Hypothesis batch_pos : 0 < BATCH_SIZE cfg.
Hypothesis slots_pos : 0 < MAX_CONCURRENCY cfg.
Hypothesis enough_fuel : (List.length galaxies <= fuel)%nat.
Hypothesis some_galaxy : galaxies <> [].

Local Abbreviation settleAll := (settleBatch resolveUrl cfg isTTY net galaxies).

(** A run on a non-empty array of records: every task settles and the
    report follows, or the first record whose URL cannot be built
    rejects [main] and the exit status is 1. *)
Lemma main_nonempty :
  match prepareAll (indexed galaxies) with
  | Normal tasks =>
      main resolveUrl cfg isTTY net (Galaxies galaxies) fuel
      = Some (report (settleAll tasks (initialRun galaxies)))
  | Throw e =>
      exists run, main resolveUrl cfg isTTY net (Galaxies galaxies) fuel
                  = Some (1, run)
  end.
Proof.
  unfold main. simpl galaxiesOf.
  replace (Z.of_nat (List.length galaxies) =? 0) with false
    by (symmetry; apply Z.eqb_neq; destruct galaxies; simpl; congruence || lia).
  pose proof (batches_spec resolveUrl cfg isTTY net galaxies batch_pos slots_pos
                fuel 0 (initialRun galaxies) ltac:(lia)) as Hb.
  unfold total in Hb. specialize (Hb ltac:(lia)).
  change (skipn (Z.to_nat 0) (indexed galaxies)) with (indexed galaxies) in Hb.
  fold (initialRun galaxies).
  destruct (prepareAll (indexed galaxies)) as [tasks | e];
    cbv beta iota in Hb.
  - now rewrite Hb.
  - destruct Hb as [st' ->]. eexists. reflexivity.
Qed.

(** The run when every record has a textual or missing name. *)
Lemma main_textual :
  Forall (fun g => hasTextName g = true) galaxies ->
  exists tasks,
    prepareAll (indexed galaxies) = Normal tasks
    /\ main resolveUrl cfg isTTY net (Galaxies galaxies) fuel
       = Some (report (settleAll tasks (initialRun galaxies))).
Proof.
  intros Htext.
  destruct (prepareAll_total _ (indexed_textual galaxies Htext))
    as [tasks Htasks].
  exists tasks. split; [ assumption | ].
  pose proof main_nonempty as Hmain. now rewrite Htasks in Hmain.
Qed.

(** The result at position [i] is the object of the i-th record. *)
Lemma settled_result (tasks : list (nat * Galaxy * (JsValue * string)))
  (i : nat) (g : Galaxy) :
  prepareAll (indexed galaxies) = Normal tasks ->
  nth_error galaxies i = Some g ->
  exists name url,
    prepare g = Normal (name, url)
    /\ nth_error (results (settleAll tasks (initialRun galaxies))) i
       = Some (entry g name url
                 (checkUrl resolveUrl (MAX_REDIRECTS cfg) (net i) url)).
Proof.
  intros Htasks Hg.
  destruct (prepareAll_nth _ _ Htasks) as [_ Hnth].
  destruct (Hnth i i g (nth_indexed galaxies i g Hg)) as ([name url] & Hp & Ht).
  exists name, url. split; [ assumption | ].
  destruct (settled_from_start resolveUrl cfg isTTY net galaxies tasks)
    as [_ ->].
  now rewrite List.nth_error_map, Ht.
Qed.


End MainRuns.








(** C10.  [buildUrlFromName] returns the bare base URL for a null, an
    undefined and an empty name; the scheduler puts the empty text in
    place of such a name and builds the bare base URL; in a run, the
    result of such a record is the one of [checkUrl] on the bare base
    URL, under the empty name; and unless the limit of redirects is
    negative, the first request of that resolution is a HEAD request to
    the bare base URL. *)
Theorem missing_name_probes_base (resolveUrl : Resolver) (cfg : Config)
  (isTTY : bool) (net : nat -> Oracle) (galaxies : list Galaxy)
  (fuel : nat) :
  (buildUrlFromName JNull = Normal BASE
   /\ buildUrlFromName JUndefined = Normal BASE
   /\ buildUrlFromName (JStr EmptyString) = Normal BASE)
  /\ (forall g : Galaxy,
        g_name g = JUndefined \/ g_name g = JNull
        \/ g_name g = JStr EmptyString ->
        prepare g = Normal (JStr EmptyString, BASE))
  /\ (0 < BATCH_SIZE cfg -> 0 < MAX_CONCURRENCY cfg ->
      (List.length galaxies <= fuel)%nat ->
      Forall (fun g => hasTextName g = true) galaxies ->
      forall (i : nat) (g : Galaxy),
        nth_error galaxies i = Some g ->
        g_name g = JUndefined \/ g_name g = JNull
        \/ g_name g = JStr EmptyString ->
        exists (code : Z) (run : Run),
          main resolveUrl cfg isTTY net (Galaxies galaxies) fuel
          = Some (code, run)
          /\ nth_error (results run) i
             = Some (entry g (JStr EmptyString) BASE
                       (checkUrl resolveUrl (MAX_REDIRECTS cfg) (net i) BASE)))
  /\ (forall oracle : Oracle,
        0 <= MAX_REDIRECTS cfg ->
        exists rest : list Request,
          requests (checkUrl_run resolveUrl (MAX_REDIRECTS cfg) oracle BASE)
          = mkRequest HEAD BASE :: rest).
Proof.
  assert (Hprepare : forall g : Galaxy,
            g_name g = JUndefined \/ g_name g = JNull
            \/ g_name g = JStr EmptyString ->
            prepare g = Normal (JStr EmptyString, BASE)).
  { intros g Hname. rewrite prepare_eq.
    destruct Hname as [-> | [-> | ->]]; reflexivity. }
  split; [ repeat split | ].
  split; [ exact Hprepare | ].
  split.
  - intros Hbatch Hslots Hfuel Htext i g Hg Hname.
    assert (Hne : galaxies <> []) by (destruct galaxies, i; discriminate).
    destruct (main_textual resolveUrl cfg isTTY net galaxies fuel
                Hbatch Hslots Hfuel Hne Htext) as (tasks & Htasks & Hmain).
    set (st := settleBatch _ _ _ _ _ tasks (initialRun galaxies)) in Hmain.
    exists (fst (report st)), (snd (report st)).
    split; [ now rewrite Hmain, <- surjective_pairing | ].
    pose proof (report_spec st) as (_ & -> & _).
    destruct (settled_result resolveUrl cfg isTTY net galaxies tasks i g
                Htasks Hg) as (name & url & Hp & Hr).
    rewrite (Hprepare g Hname) in Hp. injection Hp as <- <-. exact Hr.
  - intros oracle Hmax. unfold checkUrl_run.
    rewrite checkUrl_loop_eq. simpl redirects.
    replace (0 <=? MAX_REDIRECTS cfg) with true
      by (symmetry; now apply Z.leb_le).
    destruct (step resolveUrl _ _); eexists; reflexivity.
Qed.

Lemma missing_name_probes_base_witness :
  prepare (mkGalaxy (JNum 3) JUndefined) = Normal (JStr EmptyString, BASE)
  /\ (exists (code : Z) (run : Run),
        main exampleResolver defaultConfig false allFound
          (Galaxies threeGalaxies) 3 = Some (code, run)
        /\ nth_error (results run) 2
           = Some (entry (mkGalaxy (JNum 3) JUndefined) (JStr EmptyString) BASE
                     (checkUrl exampleResolver 5 (allFound 2%nat) BASE)))
  /\ exists rest : list Request,
       requests (checkUrl_run exampleResolver 5 (allFound 2%nat) BASE)
       = mkRequest HEAD BASE :: rest.
Proof.
  pose proof (missing_name_probes_base exampleResolver defaultConfig false
                allFound threeGalaxies 3) as (_ & Hprepare & Hmain & Hfirst).
  split; [ | split ].
  - apply Hprepare. now left.
  - apply (Hmain ltac:(reflexivity) ltac:(reflexivity) ltac:(simpl; lia)
             ltac:(repeat constructor) 2%nat (mkGalaxy (JNum 3) JUndefined)
             eq_refl).
    now left.
  - apply (Hfirst (allFound 2%nat)). simpl. lia.
Defined.

(** ** Scenarios *)

Example scenario_first_head_ok :
  checkUrl exampleResolver 5 (allFound 0%nat) (build "Euclid")
  = mkResult (build "Euclid") true None.
Proof. vm_compute. reflexivity. Qed.

Example scenario_head_refused_get_ok :
  checkUrl_run exampleResolver 5 headRefused (build "Euclid")
  = mkResolution (mkResult (build "Euclid") true None) 0
      [mkRequest HEAD (build "Euclid"); mkRequest GET (build "Euclid")].
Proof. vm_compute. reflexivity. Qed.

Example scenario_one_redirect :
  let oracle : Oracle :=
    fun k _ => match k with
               | O => Response 301 (Some "/Other_Page")
               | S _ => Response 200 None
               end in
  checkUrl_run exampleResolver 5 oracle (build "Euclid")
  = mkResolution
      (mkResult "https://nomanssky.fandom.com/Other_Page" true None) 1
      [mkRequest HEAD (build "Euclid");
       mkRequest HEAD "https://nomanssky.fandom.com/Other_Page"].
Proof. vm_compute. reflexivity. Qed.

Example scenario_six_redirects :
  let run := checkUrl_run exampleResolver 5 endlessRedirects (build "Euclid") in
  result run
  = tooManyRedirects "https://nomanssky.fandom.com/wiki/Next"
  /\ redirectsTaken run = 6
  /\ List.length (requests run) = 6%nat.
Proof. vm_compute. repeat split; reflexivity. Qed.

Example scenario_both_methods_refused :
  checkUrl_run exampleResolver 5 allRefused (build "Euclid")
  = mkResolution (mkResult (build "Euclid") false (Some "HTTP 403")) 0
      [mkRequest HEAD (build "Euclid"); mkRequest GET (build "Euclid")].
Proof. vm_compute. reflexivity. Qed.

Example scenario_network_error :
  checkUrl exampleResolver 5 (fun _ _ => Failed (Some "timeout"))
    (build "Euclid")
  = mkResult (build "Euclid") false (Some "timeout").
Proof. vm_compute. reflexivity. Qed.

Example scenario_name_with_spaces :
  buildUrlFromName (JStr "Hilbert Dimension")
  = Normal "https://nomanssky.fandom.com/wiki/Hilbert_Dimension".
Proof. reflexivity. Qed.

Example scenario_numeric_name_throws :
  buildUrlFromName (JNum 5) = Throw TypeError.
Proof. reflexivity. Qed.

Example scenario_empty_dataset :
  main exampleResolver defaultConfig false allFound (Galaxies []) 0
  = Some (1, mkRun 0 [] [NoGalaxiesFound] []).
Proof. reflexivity. Qed.

Example scenario_all_valid :
  option_map (fun out => (fst out, completed (snd out), output (snd out)))
    (main exampleResolver defaultConfig false allFound
       (Galaxies threeGalaxies) 3)
  = Some (0, 3, [Validating 3; Progress 3 3; AllValid 3]).
Proof. vm_compute. reflexivity. Qed.

Example scenario_one_invalid :
  option_map (fun out => (fst out, output (snd out)))
    (main exampleResolver defaultConfig true secondMissing
       (Galaxies threeGalaxies) 3)
  = Some (1, [Validating 3; Progress 1 3; Progress 2 3; Progress 3 3;
              InvalidLinks 1;
              InvalidLink (JNum 2) (JStr "Hilbert Dimension")
                (JStr "https://nomanssky.fandom.com/wiki/Hilbert_Dimension")
                (JStr "HTTP 404")]).
Proof. vm_compute. reflexivity. Qed.

Example scenario_no_slot_never_settles :
  main exampleResolver (mkConfig 0 10000 5 10 750 300) false allFound
    (Galaxies threeGalaxies) 3 = None.
Proof. reflexivity. Qed.

Example scenario_limiter_without_slot :
  pLimit.run 0 [pLimit.Submit; pLimit.Submit] pLimit.init
  = Some (pLimit.mkState 0 [0%nat; 1%nat] [] [] [] 2).
Proof. reflexivity. Qed.

Example scenario_throttle :
  option_map makeStartThrottler.granted
    (makeStartThrottler.run 300
       [makeStartThrottler.Call; makeStartThrottler.Call;
        makeStartThrottler.Turn 0 7 0; makeStartThrottler.Turn 100 3 2]
       (makeStartThrottler.init 1000))
  = Some [(0%nat, 1000); (1%nat, 1305)].
Proof. reflexivity. Qed.

(** * Further properties of the components *)

(** ** URL builder *)

Lemma append_cancel_l (p x y : string) : p +:+ x = p +:+ y -> x = y.
Proof.
  induction p as [ | c p IH]; simpl; [ auto | ].
  intros [= H]. now apply IH.
Qed.

Lemma replaceSpaces_inj (a b : string) :
  hasUnderscore a = false -> hasUnderscore b = false ->
  replaceSpaces a = replaceSpaces b -> a = b.
Proof.
  revert b. induction a as [ | c a IH]; intros [ | d b]; simpl;
    try discriminate; [ reflexivity | ].
  intros Ha Hb [= Hc Hrest].
  apply orb_false_elim in Ha as [Hc_ Ha].
  apply orb_false_elim in Hb as [Hd_ Hb].
  f_equal; [ | now apply IH ].
  unfold spaceToUnderscore in Hc.
  destruct (Ascii.eqb c " ") eqn:Hcs, (Ascii.eqb d " ") eqn:Hds.
  - apply Ascii.eqb_eq in Hcs, Hds. congruence.
  - subst d. rewrite Ascii.eqb_refl in Hd_. discriminate.
  - subst c. rewrite Ascii.eqb_refl in Hc_. discriminate.
  - exact Hc.
Qed.

(** X1.  Two names get the same URL exactly when they are equal once
    their spaces are underscores; so names that contain no underscore
    get different URLs unless they are the same name. *)
Theorem build_same_url (a b : string) :
  (build a = build b <-> replaceSpaces a = replaceSpaces b)
  /\ (hasUnderscore a = false -> hasUnderscore b = false ->
      build a = build b -> a = b).
Proof.
  assert (Hiff : build a = build b <-> replaceSpaces a = replaceSpaces b).
  { rewrite !build_replace. unfold build_spec. split.
    - apply append_cancel_l.
    - now intros ->. }
  split; [ exact Hiff | ].
  intros Ha Hb Hab. apply replaceSpaces_inj; auto. now apply Hiff.
Qed.

Lemma build_same_url_witness :
  hasUnderscore "Hilbert Dimension" = false
  /\ "Hilbert Dimension"%string = "Hilbert Dimension"%string.
Proof.
  split; [ reflexivity | ].
  apply (proj2 (build_same_url "Hilbert Dimension" "Hilbert Dimension"));
    reflexivity.
Defined.

(** X2.  [buildUrlFromName] returns the bare base URL for every falsy
    value (undefined, null, false, 0, the empty text), and it throws,
    always a TypeError, exactly for the truthy values that are not
    texts. *)
Theorem buildUrlFromName_throws (v : JsValue) :
  (truthy v = false -> buildUrlFromName v = Normal BASE)
  /\ (forall e : Exception,
        buildUrlFromName v = Throw e <->
        e = TypeError /\ truthy v = true /\ isText v = false).
Proof.
  split.
  - intros Hv. unfold buildUrlFromName, js_or. now rewrite Hv.
  - intros e. unfold buildUrlFromName, js_or.
    destruct (truthy v) eqn:Hv.
    + destruct v; simpl in *; try discriminate;
        try (split; [ intros [= <-]; auto | intros (-> & _); reflexivity ]).
      split; [ discriminate | intros (_ & _ & ?); discriminate ].
    + split; [ discriminate | intros (_ & ? & _); discriminate ].
Qed.

Lemma buildUrlFromName_throws_witness :
  buildUrlFromName (JNum 0) = Normal BASE.
Proof.
  apply (proj1 (buildUrlFromName_throws (JNum 0))). reflexivity.
Defined.

(** ** Redirect/method resolver *)

Lemma errorMessage_nonempty (message : option string) :
  errorMessage message <> EmptyString.
Proof.
  unfold errorMessage. destruct message as [m | ]; [ | discriminate ].
  destruct (String.eqb m EmptyString) eqn:Hm; [ discriminate | ].
  now apply String.eqb_neq.
Qed.

Section ResolutionMore.

Variable resolveUrl : Resolver.
Variable maxRedirects : Z.

Local Abbreviation pass := (step resolveUrl).
Local Abbreviation loop := (checkUrl_loop resolveUrl maxRedirects).

(** The ways in which a pass returns. *)
Lemma step_Done (st : Probing) (last : ProbeOutcome) (r : CheckResult) :
  pass st last = Done r ->
  r_url r = currentUrl st
  /\ ((r_valid r = true /\ r_reason r = None
       /\ exists status location,
            last = Response status location /\ 200 <= status < 300)
      \/ (r_valid r = false
          /\ (exists text, r_reason r = Some text /\ text <> EmptyString)
          /\ (forall status location,
                last = Response status location -> ~ 200 <= status < 300)
          /\ (forall message,
                last = Failed message ->
                r_reason r = Some (errorMessage message)))).
Proof.
  unfold step. destruct last as [status location | message].
  - destruct ((200 <=? status) && (status <? 300)) eqn:H2xx.
    + intros [= <-]. split; [ reflexivity | left ].
      apply andb_prop in H2xx as [H1 H2].
      apply Z.leb_le in H1. apply Z.ltb_lt in H2.
      repeat split; auto. exists status, location. auto.
    + assert (Hnot : forall s l, Response status location = Response s l ->
                       ~ 200 <= s < 300).
      { intros s l [= <- <-] [H1 H2].
        apply Z.leb_le in H1. apply Z.ltb_lt in H2.
        rewrite H1, H2 in H2xx. discriminate. }
      destruct (((status =? 405) || (status =? 403)) && isHEAD (method st));
        [ discriminate | ].
      destruct (redirectLocation status location) as [loc | ].
      * destruct (resolveUrl loc (currentUrl st)); [ discriminate | ].
        intros [= <-]. split; [ reflexivity | right ].
        repeat split; auto; [ | discriminate ].
        eexists. split; [ reflexivity | discriminate ].
      * intros [= <-]. split; [ reflexivity | right ].
        repeat split; auto; [ | discriminate ].
        eexists. split; [ reflexivity | discriminate ].
  - intros [= <-]. split; [ reflexivity | right ].
    repeat split; auto; [ | discriminate | now intros m [= <-] ].
    eexists. split; [ reflexivity | apply errorMessage_nonempty ].
Qed.

Lemma requests_head (oracle : Oracle) (st : Probing) (k : nat) :
  requests (loop oracle st k) = []
  \/ exists rest, requests (loop oracle st k) = request st :: rest.
Proof.
  rewrite checkUrl_loop_eq.
  destruct (redirects st <=? maxRedirects); [ | now left ].
  right. destruct (pass st _); eexists; reflexivity.
Qed.


Lemma loop_valid_last (oracle : Oracle) (st : Probing) (k : nat) :
  r_valid (result (loop oracle st k)) = true <->
  exists (n : nat) (rq : Request) (status : Z) (location : option string),
    nth_error (requests (loop oracle st k)) n = Some rq
    /\ S n = List.length (requests (loop oracle st k))
    /\ oracle (k + n)%nat rq = Response status location
    /\ 200 <= status < 300
    /\ r_url (result (loop oracle st k)) = rq_url rq.
Proof.
  revert st k.
  apply (checkUrl_loop_ind resolveUrl maxRedirects oracle (fun _ k run =>
    r_valid (result run) = true <->
    exists (n : nat) (rq : Request) (status : Z) (location : option string),
      nth_error (requests run) n = Some rq
      /\ S n = List.length (requests run)
      /\ oracle (k + n)%nat rq = Response status location
      /\ 200 <= status < 300
      /\ r_url (result run) = rq_url rq)).
  - intros st k _. simpl. split; [ discriminate | ].
    intros (n & rq & status & location & _ & Hn & _). discriminate.
  - intros st k r _ Hstep. simpl.
    pose proof (step_Done _ _ _ Hstep) as [Hurl Hcases]. split.
    + intros Hv.
      destruct Hcases as [(_ & _ & status & location & Hlast & Hs)
                         | (Hf & _)]; [ | congruence ].
      exists 0%nat, (request st), status, location.
      rewrite Nat.add_0_r. repeat split; auto; lia.
    + intros (n & rq & status & location & Hn & Hlen & Hlast & Hs & _).
      destruct n as [ | n]; [ | discriminate ].
      injection Hn as <-. rewrite Nat.add_0_r in Hlast.
      destruct Hcases as [(Hv & _) | (_ & _ & Hnot & _)]; [ assumption | ].
      now destruct (Hnot status location Hlast).
  - intros st k st' _ Hstep IH. simpl. rewrite IH. clear IH. split.
    + intros (n & rq & status & location & Hn & Hlen & Hlast & Hs & Hurl).
      exists (S n), rq, status, location. simpl.
      rewrite Nat.add_succ_r. repeat split; auto; lia.
    + intros (n & rq & status & location & Hn & Hlen & Hlast & Hs & Hurl).
      destruct n as [ | n].
      * exfalso. simpl in Hn. injection Hn as <-.
        rewrite Nat.add_0_r in Hlast. rewrite Hlast in Hstep.
        unfold step in Hstep.
        replace ((200 <=? status) && (status <? 300)) with true in Hstep
          by (symmetry; apply andb_true_iff; split;
              [ apply Z.leb_le | apply Z.ltb_lt ]; lia).
        discriminate.
      * exists n, rq, status, location. simpl in Hn, Hlen.
        rewrite Nat.add_succ_r in Hlast. repeat split; auto; lia.
Qed.

Lemma loop_hops (oracle : Oracle) (st : Probing) (k : nat) :
  (method st = GET -> redirects st <= maxRedirects) ->
  redirects st <= maxRedirects + 1 ->
  redirectsTaken (loop oracle st k) <= maxRedirects + 1
  /\ Z.of_nat (hopsProbed (requests (loop oracle st k)))
     + (if isHEAD (method st) then 0 else 1)
     = Z.min (redirectsTaken (loop oracle st k)) maxRedirects + 1
       - redirects st.
Proof.
  revert st k.
  apply (checkUrl_loop_ind resolveUrl maxRedirects oracle (fun st _ run =>
    (method st = GET -> redirects st <= maxRedirects) ->
    redirects st <= maxRedirects + 1 ->
    redirectsTaken run <= maxRedirects + 1
    /\ Z.of_nat (hopsProbed (requests run))
       + (if isHEAD (method st) then 0 else 1)
       = Z.min (redirectsTaken run) maxRedirects + 1 - redirects st)).
  - intros st k Hgt Hget Hle. unfold hopsProbed. simpl.
    destruct (method st); simpl; [ lia | ].
    specialize (Hget eq_refl). lia.
  - intros st k r Hle _ _ _. unfold hopsProbed. simpl.
    destruct (method st); simpl; lia.
  - intros st k st' Hle Hstep IH _ _. unfold hopsProbed in *. simpl.
    apply step_Continue in Hstep
      as [(status & location & _ & _ & Hm & ->)
         | (status & location & next & _ & _ & _ & _ & ->)];
      simpl in IH.
    + rewrite Hm. simpl. specialize (IH (fun _ => Hle) ltac:(lia)). lia.
    + specialize (IH ltac:(discriminate) ltac:(lia)).
      destruct (method st); simpl; lia.
Qed.

(** Two networks that answer alike the requests that are sent give the
    same resolution. *)
Lemma loop_same_answers (oracle oracle' : Oracle) (st : Probing) (k : nat) :
  (forall (n : nat) (rq : Request),
      nth_error (requests (loop oracle st k)) n = Some rq ->
      oracle' (k + n)%nat rq = oracle (k + n)%nat rq) ->
  loop oracle' st k = loop oracle st k.
Proof.
  revert st k.
  apply (checkUrl_loop_ind resolveUrl maxRedirects oracle (fun st k run =>
    (forall (n : nat) (rq : Request),
        nth_error (requests run) n = Some rq ->
        oracle' (k + n)%nat rq = oracle (k + n)%nat rq) ->
    loop oracle' st k = run)).
  - intros st k Hgt _. rewrite checkUrl_loop_eq.
    replace (redirects st <=? maxRedirects) with false
      by (symmetry; apply Z.leb_gt; lia).
    reflexivity.
  - intros st k r Hle Hstep Hsame. rewrite checkUrl_loop_eq.
    apply Z.leb_le in Hle. rewrite Hle.
    specialize (Hsame 0%nat (request st) eq_refl).
    rewrite Nat.add_0_r in Hsame. now rewrite Hsame, Hstep.
  - intros st k st' Hle Hstep IH Hsame. rewrite checkUrl_loop_eq.
    apply Z.leb_le in Hle. rewrite Hle.
    pose proof (Hsame 0%nat (request st) eq_refl) as H0.
    rewrite Nat.add_0_r in H0. rewrite H0, Hstep. f_equal.
    apply IH. intros n rq Hn.
    specialize (Hsame (S n) rq Hn). now rewrite Nat.add_succ_r in Hsame.
Qed.

(** Each request after the first follows from the answer to the one
    before it: a refused HEAD, or a redirect. *)
Lemma loop_next_request (oracle : Oracle) (st : Probing) (k : nat)
  (n : nat) (rq rq' : Request) :
  nth_error (requests (loop oracle st k)) n = Some rq ->
  nth_error (requests (loop oracle st k)) (S n) = Some rq' ->
  (exists status location,
      oracle (k + n)%nat rq = Response status location
      /\ (status = 405 \/ status = 403)
      /\ rq_method rq = HEAD
      /\ rq' = mkRequest GET (rq_url rq))
  \/ (exists status location,
      oracle (k + n)%nat rq = Response status (Some location)
      /\ 300 <= status < 400 /\ location <> EmptyString
      /\ resolveUrl location (rq_url rq) = Some (rq_url rq')
      /\ rq_method rq' = HEAD).
Proof.
  revert st k n.
  apply (checkUrl_loop_ind resolveUrl maxRedirects oracle (fun st k run =>
    forall n : nat,
    nth_error (requests run) n = Some rq ->
    nth_error (requests run) (S n) = Some rq' ->
    (exists status location,
        oracle (k + n)%nat rq = Response status location
        /\ (status = 405 \/ status = 403)
        /\ rq_method rq = HEAD
        /\ rq' = mkRequest GET (rq_url rq))
    \/ (exists status location,
        oracle (k + n)%nat rq = Response status (Some location)
        /\ 300 <= status < 400 /\ location <> EmptyString
        /\ resolveUrl location (rq_url rq) = Some (rq_url rq')
        /\ rq_method rq' = HEAD))).
  - intros st k _ [ | n]; discriminate.
  - intros st k r _ _ [ | [ | n]]; discriminate.
  - intros st k st' _ Hstep IH [ | n]; simpl.
    + intros [= <-] Hnext. rewrite Nat.add_0_r.
      destruct (requests_head oracle st' (S k)) as [Hnil | [rest Hrest]];
        [ rewrite Hnil in Hnext; discriminate | ].
      rewrite Hrest in Hnext. injection Hnext as <-.
      apply step_Continue in Hstep
        as [(status & location & Hlast & Hs & Hm & ->)
           | (status & location & next & Hlast & Hs & Hl & Hres & ->)].
      * left. exists status, location. auto.
      * right. exists status, location. auto.
    + intros Hn Hnext. rewrite Nat.add_succ_r. now apply IH.
Qed.

Lemma loop_failed (oracle : Oracle) (st : Probing) (k : nat)
  (n : nat) (rq : Request) (message : option string) :
  nth_error (requests (loop oracle st k)) n = Some rq ->
  oracle (k + n)%nat rq = Failed message ->
  S n = List.length (requests (loop oracle st k))
  /\ result (loop oracle st k)
     = mkResult (rq_url rq) false (Some (errorMessage message)).
Proof.
  revert st k n.
  apply (checkUrl_loop_ind resolveUrl maxRedirects oracle (fun st k run =>
    forall n : nat,
    nth_error (requests run) n = Some rq ->
    oracle (k + n)%nat rq = Failed message ->
    S n = List.length (requests run)
    /\ result run = mkResult (rq_url rq) false (Some (errorMessage message)))).
  - intros st k _ [ | n]; discriminate.
  - intros st k r _ Hstep [ | [ | n]]; try discriminate.
    simpl. intros [= <-]. rewrite Nat.add_0_r. intros Hlast.
    rewrite Hlast in Hstep. simpl in Hstep. injection Hstep as <-. auto.
  - intros st k st' _ Hstep IH [ | n]; simpl.
    + intros [= <-]. rewrite Nat.add_0_r. intros Hlast.
      rewrite Hlast in Hstep. discriminate.
    + intros Hn Hlast. rewrite Nat.add_succ_r in Hlast.
      destruct (IH n Hn Hlast) as [Hlen Hres]. auto.
Qed.

End ResolutionMore.


(** X4.  [checkUrl] reports a valid link exactly when the last request
    it sent was answered with a status in [200,300); the URL it reports
    is then the URL of that request. *)
Theorem checkUrl_valid_iff_last_ok (resolveUrl : Resolver)
  (maxRedirects : Z) (oracle : Oracle) (url : string) :
  let run := checkUrl_run resolveUrl maxRedirects oracle url in
  r_valid (result run) = true <->
  exists (n : nat) (rq : Request) (status : Z) (location : option string),
    nth_error (requests run) n = Some rq
    /\ S n = List.length (requests run)
    /\ oracle n rq = Response status location
    /\ 200 <= status < 300
    /\ r_url (result run) = rq_url rq.
Proof.
  intros run.
  exact (loop_valid_last resolveUrl maxRedirects oracle
           (mkProbing HEAD url 0) 0).
Qed.

Lemma checkUrl_valid_iff_last_ok_witness :
  r_valid (result (checkUrl_run exampleResolver 5 headRefused
                     (build "Euclid"))) = true.
Proof.
  apply (proj2 (checkUrl_valid_iff_last_ok exampleResolver 5 headRefused
                  (build "Euclid"))).
  exists 1%nat, (mkRequest GET (build "Euclid")), 200, None.
  repeat split; try reflexivity; lia.
Defined.

(** X5.  Unless the limit is below -1, a resolution takes between 0
    and [maxRedirects + 1] redirects, and it probes one hop more than
    the redirects it takes within the limit: the hops probed, counted
    by their HEAD requests, are [min(redirectsTaken, maxRedirects) + 1]. *)
Theorem checkUrl_hops (resolveUrl : Resolver) (maxRedirects : Z)
  (oracle : Oracle) (url : string) :
  -1 <= maxRedirects ->
  let run := checkUrl_run resolveUrl maxRedirects oracle url in
  0 <= redirectsTaken run <= maxRedirects + 1
  /\ Z.of_nat (hopsProbed (requests run))
     = Z.min (redirectsTaken run) maxRedirects + 1.
Proof.
  intros Hmax run. subst run. unfold checkUrl_run.
  pose proof (loop_hops resolveUrl maxRedirects oracle (mkProbing HEAD url 0)
                0 ltac:(discriminate) ltac:(simpl; lia)) as [Hle Hhops].
  pose proof (redirectsTaken_verdict resolveUrl maxRedirects oracle
                (mkProbing HEAD url 0) 0) as [Hge _].
  simpl in Hhops, Hge. split; [ lia | lia ].
Qed.

Lemma checkUrl_hops_witness :
  let run := checkUrl_run exampleResolver 5 endlessRedirects
               (build "Euclid") in
  0 <= redirectsTaken run <= 5 + 1
  /\ Z.of_nat (hopsProbed (requests run))
     = Z.min (redirectsTaken run) 5 + 1.
Proof.
  apply (checkUrl_hops exampleResolver 5 endlessRedirects (build "Euclid")).
  lia.
Defined.

(** X6.  The resolution depends on the network only through the
    answers to the requests that are sent: a network that gives the
    same answers to these requests gives the same result, count of
    redirects and requests. *)
Theorem checkUrl_same_answers (resolveUrl : Resolver) (maxRedirects : Z)
  (oracle oracle' : Oracle) (url : string) :
  (forall (n : nat) (rq : Request),
      nth_error (requests (checkUrl_run resolveUrl maxRedirects oracle url)) n
      = Some rq ->
      oracle' n rq = oracle n rq) ->
  checkUrl_run resolveUrl maxRedirects oracle' url
  = checkUrl_run resolveUrl maxRedirects oracle url.
Proof.
  intros Hsame. unfold checkUrl_run. apply loop_same_answers.
  intros n rq Hn. now apply Hsame.
Qed.

Lemma checkUrl_same_answers_witness :
  checkUrl_run exampleResolver 5
    (fun k _ => match k with O => Response 200 None | S _ => Failed None end)
    (build "Euclid")
  = checkUrl_run exampleResolver 5 (allFound 0%nat) (build "Euclid").
Proof.
  apply checkUrl_same_answers.
  intros [ | [ | n]] rq Hn; [ reflexivity | discriminate | discriminate ].
Defined.

(** X7.  With a negative limit of redirects [checkUrl] sends no request
    and reports the URL it was given as invalid, "too many redirects";
    with any other limit its first request is a HEAD request to the
    URL it was given. *)
Theorem checkUrl_first_request (resolveUrl : Resolver) (maxRedirects : Z)
  (oracle : Oracle) (url : string) :
  (maxRedirects < 0 ->
   checkUrl_run resolveUrl maxRedirects oracle url
   = mkResolution (tooManyRedirects url) 0 [])
  /\ (0 <= maxRedirects ->
      exists rest : list Request,
        requests (checkUrl_run resolveUrl maxRedirects oracle url)
        = mkRequest HEAD url :: rest).
Proof.
  unfold checkUrl_run. rewrite checkUrl_loop_eq. simpl redirects. split.
  - intros Hneg.
    replace (0 <=? maxRedirects) with false
      by (symmetry; apply Z.leb_gt; lia).
    reflexivity.
  - intros Hmax.
    replace (0 <=? maxRedirects) with true by (symmetry; now apply Z.leb_le).
    destruct (step resolveUrl _ _); eexists; reflexivity.
Qed.

Lemma checkUrl_first_request_witness :
  checkUrl_run exampleResolver (-1) (allFound 0%nat) (build "Euclid")
  = mkResolution (tooManyRedirects (build "Euclid")) 0 []
  /\ exists rest : list Request,
       requests (checkUrl_run exampleResolver 0 (allFound 0%nat)
                   (build "Euclid"))
       = mkRequest HEAD (build "Euclid") :: rest.
Proof.
  split.
  - apply (proj1 (checkUrl_first_request exampleResolver (-1)
                    (allFound 0%nat) (build "Euclid"))). lia.
  - apply (proj2 (checkUrl_first_request exampleResolver 0
                    (allFound 0%nat) (build "Euclid"))). lia.
Defined.

(** X8.  Every request after the first follows from the answer to the
    request before it: either that was a HEAD request answered 403 or
    405, and the next request is a GET request to the same URL; or it
    was answered by a redirect with a non-empty location, and the next
    request is a HEAD request to the URL the location resolves to. *)
Theorem checkUrl_next_request (resolveUrl : Resolver) (maxRedirects : Z)
  (oracle : Oracle) (url : string) (n : nat) (rq rq' : Request) :
  let run := checkUrl_run resolveUrl maxRedirects oracle url in
  nth_error (requests run) n = Some rq ->
  nth_error (requests run) (S n) = Some rq' ->
  (exists status location,
      oracle n rq = Response status location
      /\ (status = 405 \/ status = 403)
      /\ rq_method rq = HEAD
      /\ rq' = mkRequest GET (rq_url rq))
  \/ (exists status location,
      oracle n rq = Response status (Some location)
      /\ 300 <= status < 400 /\ location <> EmptyString
      /\ resolveUrl location (rq_url rq) = Some (rq_url rq')
      /\ rq_method rq' = HEAD).
Proof.
  intros run. subst run. unfold checkUrl_run.
  apply (loop_next_request resolveUrl maxRedirects oracle
           (mkProbing HEAD url 0) 0).
Qed.

Lemma checkUrl_next_request_witness :
  (exists status location,
      headRefused 0%nat (mkRequest HEAD (build "Euclid"))
      = Response status location
      /\ (status = 405 \/ status = 403)
      /\ rq_method (mkRequest HEAD (build "Euclid")) = HEAD
      /\ mkRequest GET (build "Euclid")
         = mkRequest GET (rq_url (mkRequest HEAD (build "Euclid"))))
  \/ (exists status location,
      headRefused 0%nat (mkRequest HEAD (build "Euclid"))
      = Response status (Some location)
      /\ 300 <= status < 400 /\ location <> EmptyString
      /\ exampleResolver location (rq_url (mkRequest HEAD (build "Euclid")))
         = Some (rq_url (mkRequest GET (build "Euclid")))
      /\ rq_method (mkRequest GET (build "Euclid")) = HEAD).
Proof.
  apply (checkUrl_next_request exampleResolver 5 headRefused (build "Euclid")
           0%nat (mkRequest HEAD (build "Euclid"))
           (mkRequest GET (build "Euclid")));
    reflexivity.
Defined.

(** X9.  A transport failure is never retried: the request that fails
    is the last one of the resolution, and the result is invalid, for
    the URL of that request, with the message of the error as its
    reason ("request failed" when the error has no message). *)
Theorem checkUrl_failure_is_final (resolveUrl : Resolver) (maxRedirects : Z)
  (oracle : Oracle) (url : string) (n : nat) (rq : Request)
  (message : option string) :
  let run := checkUrl_run resolveUrl maxRedirects oracle url in
  nth_error (requests run) n = Some rq ->
  oracle n rq = Failed message ->
  S n = List.length (requests run)
  /\ result run
     = mkResult (rq_url rq) false
         (Some (match message with
                | Some m => if String.eqb m EmptyString
                            then "request failed"%string else m
                | None => "request failed"%string
                end)).
Proof.
  intros run. subst run. unfold checkUrl_run.
  apply (loop_failed resolveUrl maxRedirects oracle (mkProbing HEAD url 0) 0).
Qed.

Lemma checkUrl_failure_is_final_witness :
  let oracle : Oracle :=
    fun k _ => match k with
               | O => Response 301 (Some "/wiki/Next")
               | S _ => Failed (Some "timeout")
               end in
  let run := checkUrl_run exampleResolver 5 oracle (build "Euclid") in
  2%nat = List.length (requests run)
  /\ result run
     = mkResult "https://nomanssky.fandom.com/wiki/Next" false
         (Some "timeout").
Proof.
  intros oracle run.
  apply (checkUrl_failure_is_final exampleResolver 5 oracle (build "Euclid")
           1%nat (mkRequest HEAD "https://nomanssky.fandom.com/wiki/Next")
           (Some "timeout"));
    reflexivity.
Defined.

(** ** Concurrency limiter *)

Lemma next_cases (concurrency : Z) (s : pLimit.State) :
  pLimit.next concurrency s = s
  \/ exists task rest,
       pLimit.queue s = task :: rest
       /\ pLimit.next concurrency s
          = pLimit.mkState (pLimit.activeCount s + 1) rest
              (pLimit.running s ++ [task]) (pLimit.started s ++ [task])
              (pLimit.settled s) (pLimit.submitted s).
Proof.
  unfold pLimit.next. destruct (pLimit.queue s) as [ | task rest];
    [ now left | ].
  destruct (pLimit.activeCount s >=? concurrency); [ now left | ].
  right. now exists task, rest.
Qed.

Section LimiterMore.

Variable concurrency : Z.

(** Starting the head of the queue keeps the settled promises in order. *)
Lemma settledInv_next (s : pLimit.State) :
  (forall t, List.In t (pLimit.queue s) -> ~ List.In t (pLimit.started s)) ->
  settledInv s -> settledInv (pLimit.next concurrency s).
Proof.
  intros Hfresh (Hnd & Hset & Hsplit & Hlen).
  destruct (next_cases concurrency s) as [-> | (task & rest & Hq & ->)];
    [ repeat split; auto; now apply Hset | ].
  assert (Hnew : ~ List.In task (pLimit.started s))
    by (apply Hfresh; rewrite Hq; now left).
  unfold settledInv. limiter_fields. repeat apply conj.
  - exact Hnd.
  - intros t Ht. destruct (Hset t Ht) as [Hst Hrun]. split.
    + apply List.in_app_iff. now left.
    + intros Hin. apply List.in_app_iff in Hin as [Hin | [Heq | []]]; auto.
      subst t. auto.
  - intros t Ht. apply List.in_app_iff in Ht as [Ht | [Heq | []]].
    + destruct (Hsplit t Ht) as [Hr | Hs]; [ left | now right ].
      apply List.in_app_iff. now left.
    + subst t. left. apply List.in_app_iff. right. now left.
  - rewrite !List.length_app. simpl. lia.
Qed.

Lemma settledInv_exec (s s' : pLimit.State) (e : pLimit.Event) :
  limiterInv concurrency s -> settledInv s ->
  pLimit.exec concurrency s e = Some s' -> settledInv s'.
Proof.
  intros Hinv Hsettled.
  pose proof (fun t => queued_not_started concurrency s t Hinv) as Hfresh.
  pose proof Hinv as (_ & _ & _ & Hndrun & Hincl & _).
  assert (Hsettle : forall task fulfilled,
            List.In task (pLimit.running s) ->
            settledInv
              (pLimit.next concurrency
                 (pLimit.mkState (pLimit.activeCount s - 1) (pLimit.queue s)
                    (pLimit.without task (pLimit.running s))
                    (pLimit.started s)
                    (pLimit.settled s ++ [(task, fulfilled)])
                    (pLimit.submitted s)))).
  { intros task fulfilled Hrun.
    destruct Hsettled as (Hnd & Hset & Hsplit & Hlen).
    apply settledInv_next; [ exact Hfresh | ].
    pose proof (without_length task _ Hndrun Hrun) as Hwl.
    unfold settledInv. limiter_fields. repeat apply conj.
    - rewrite List.map_app. simpl. apply List.NoDup_app; auto.
      + repeat constructor. intros [].
      + intros t Ht [Heq | []]. subst t.
        destruct (Hset task Ht) as [_ Hnot]. auto.
    - intros t Ht. rewrite List.map_app in Ht. simpl in Ht.
      apply List.in_app_iff in Ht as [Ht | [Heq | []]].
      + destruct (Hset t Ht) as [Hst Hnot]. split; [ assumption | ].
        intros Hin. apply Hnot. now apply (without_incl task).
      + subst t. split; [ now apply Hincl | ].
        intros Hin. apply List.filter_In in Hin as [_ Hneq].
        rewrite Nat.eqb_refl in Hneq. discriminate.
    - intros t Ht. rewrite List.map_app, List.in_app_iff. simpl.
      destruct (Nat.eq_dec task t) as [<- | Hneq]; [ right; right; now left | ].
      destruct (Hsplit t Ht) as [Hr | Hs]; [ left | right; now left ].
      apply List.filter_In. split; [ assumption | ].
      apply negb_true_iff, Nat.eqb_neq. exact Hneq.
    - rewrite List.length_app. simpl. lia. }
  destruct e as [ | task | task ]; simpl.
  - intros [= <-]. unfold pLimit.limit.
    apply settledInv_next.
    + limiter_fields. intros t Ht Hst.
      apply List.in_app_iff in Ht as [Ht | [Heq | []]];
        [ exact (Hfresh t Ht Hst) | subst t ].
      destruct Hinv as (_ & _ & Hseq & _).
      assert (Hin : List.In (pLimit.submitted s)
                      (seq 0 (pLimit.submitted s)))
        by (rewrite <- Hseq; apply List.in_app_iff; now left).
      apply List.in_seq in Hin. lia.
    + exact Hsettled.
  - destruct (pLimit.isRunning task s) eqn:Hrun; [ | discriminate ].
    intros [= <-]. apply isRunning_In in Hrun. now apply Hsettle.
  - destruct (pLimit.isRunning task s) eqn:Hrun; [ | discriminate ].
    intros [= <-]. apply isRunning_In in Hrun. now apply Hsettle.
Qed.

Lemma settledInv_run (events : list pLimit.Event) (s s' : pLimit.State) :
  limiterInv concurrency s -> settledInv s ->
  pLimit.run concurrency events s = Some s' -> settledInv s'.
Proof.
  revert s. induction events as [ | e events IH]; intros s Hinv Hsettled;
    simpl.
  - now intros [= <-].
  - destruct (pLimit.exec concurrency s e) as [s1 | ] eqn:He;
      [ | discriminate ].
    apply IH.
    + now apply (limiterInv_exec concurrency s s1 e).
    + now apply (settledInv_exec s s1 e).
Qed.

(** Without a slot, an event is a submission and only lengthens the
    queue. *)
Lemma idleInv_exec (s s' : pLimit.State) (e : pLimit.Event) :
  concurrency <= 0 -> idleInv s ->
  pLimit.exec concurrency s e = Some s' ->
  e = pLimit.Submit /\ idleInv s'.
Proof.
  intros Hnone (Hcount & Hrun & Hst & Hset & Hq).
  destruct e as [ | task | task ]; simpl.
  - intros [= <-]. split; [ reflexivity | ].
    unfold pLimit.limit.
    rewrite next_no_slot by (limiter_fields; lia).
    unfold idleInv. limiter_fields. repeat split; auto.
    now rewrite List.seq_S, Hq.
  - unfold pLimit.isRunning. rewrite Hrun. discriminate.
  - unfold pLimit.isRunning. rewrite Hrun. discriminate.
Qed.

End LimiterMore.

(** X10.  With a limit of zero or less the limiter never starts a
    task: whatever is submitted stays in the queue, in order, no task
    is running or settled, and no settling event can occur. *)
Theorem pLimit_without_slot (concurrency : Z) (events : list pLimit.Event)
  (s : pLimit.State) :
  concurrency <= 0 ->
  pLimit.run concurrency events pLimit.init = Some s ->
  pLimit.started s = [] /\ pLimit.running s = []
  /\ pLimit.settled s = []
  /\ pLimit.queue s = seq 0 (List.length events)
  /\ Forall (fun e => e = pLimit.Submit) events.
Proof.
  intros Hnone.
  assert (Hgen : forall evs s0, idleInv s0 ->
            pLimit.run concurrency evs s0 = Some s ->
            idleInv s
            /\ pLimit.submitted s
               = (pLimit.submitted s0 + List.length evs)%nat
            /\ Forall (fun e => e = pLimit.Submit) evs).
  { induction evs as [ | e evs IH]; intros s0 Hidle; simpl.
    - intros [= <-]. split; [ exact Hidle | ]. split; [ lia | constructor ].
    - destruct (pLimit.exec concurrency s0 e) as [s1 | ] eqn:He;
        [ | discriminate ].
      destruct (idleInv_exec concurrency s0 s1 e Hnone Hidle He)
        as [-> Hidle1].
      intros Hrun. destruct (IH s1 Hidle1 Hrun) as (Hs & Hsub & Hall).
      injection He as <-. simpl in Hsub.
      split; [ exact Hs | ]. split; [ | now constructor ].
      unfold pLimit.limit in Hsub.
      rewrite next_no_slot in Hsub
        by (destruct Hidle as (Hc & _); limiter_fields; lia).
      simpl in Hsub. lia. }
  intros Hrun.
  destruct (Hgen events pLimit.init ltac:(repeat split) Hrun)
    as ((_ & Hr & Hst & Hset & Hq) & Hsub & Hall).
  simpl in Hsub. rewrite <- Hsub. auto.
Qed.

Lemma pLimit_without_slot_witness :
  let s := pLimit.mkState 0 [0%nat; 1%nat] [] [] [] 2 in
  pLimit.started s = [] /\ pLimit.running s = []
  /\ pLimit.settled s = []
  /\ pLimit.queue s = seq 0 2
  /\ Forall (fun e => e = pLimit.Submit) [pLimit.Submit; pLimit.Submit].
Proof.
  apply (pLimit_without_slot 0 [pLimit.Submit; pLimit.Submit]);
    [ lia | reflexivity ].
Defined.

(** X11.  The limiter keeps no slot idle while a task waits: in every
    state it reaches, a non-empty queue means that exactly
    [concurrency] tasks are running, and a free slot means that the
    queue is empty. *)
Theorem pLimit_work_conserving (concurrency : Z)
  (events : list pLimit.Event) (s : pLimit.State) :
  0 <= concurrency ->
  pLimit.run concurrency events pLimit.init = Some s ->
  (pLimit.queue s <> [] ->
   Z.of_nat (List.length (pLimit.running s)) = concurrency)
  /\ (Z.of_nat (List.length (pLimit.running s)) < concurrency ->
      pLimit.queue s = []).
Proof.
  intros Hnonneg Hrun.
  pose proof (limiterInv_run concurrency events _ s
                (limiterInv_init concurrency Hnonneg) Hrun)
    as (Hcount & _ & _ & _ & _ & Hsat).
  split.
  - intros Hq. rewrite <- Hcount. now apply Hsat.
  - intros Hfree. destruct (pLimit.queue s) as [ | t q]; [ reflexivity | ].
    specialize (Hsat ltac:(discriminate)). lia.
Qed.

Lemma pLimit_work_conserving_witness :
  let s := pLimit.mkState 2 [2%nat] [0%nat; 1%nat] [0%nat; 1%nat] [] 3 in
  (pLimit.queue s <> [] -> Z.of_nat (List.length (pLimit.running s)) = 2)
  /\ (Z.of_nat (List.length (pLimit.running s)) < 2 -> pLimit.queue s = []).
Proof.
  apply (pLimit_work_conserving 2
           [pLimit.Submit; pLimit.Submit; pLimit.Submit]);
    [ lia | reflexivity ].
Defined.

(** X12.  The limiter settles the promise of each caller at most once,
    and only for a task it has started and that no longer runs: in
    every state it reaches, no task occurs twice among the settled
    ones, the started tasks are the running and the settled ones, and
    every submission is waiting, running or settled. *)
Theorem pLimit_settles_once (concurrency : Z)
  (events : list pLimit.Event) (s : pLimit.State) :
  0 <= concurrency ->
  pLimit.run concurrency events pLimit.init = Some s ->
  List.NoDup (map fst (pLimit.settled s))
  /\ (forall t : nat,
        List.In t (pLimit.started s) <->
        List.In t (pLimit.running s)
        \/ List.In t (map fst (pLimit.settled s)))
  /\ (forall t : nat,
        List.In t (pLimit.running s) ->
        ~ List.In t (map fst (pLimit.settled s)))
  /\ pLimit.submitted s
     = (List.length (pLimit.queue s) + List.length (pLimit.running s)
        + List.length (pLimit.settled s))%nat.
Proof.
  intros Hnonneg Hrun.
  pose proof (limiterInv_init concurrency Hnonneg) as Hinit.
  pose proof (limiterInv_run concurrency events _ s Hinit Hrun)
    as (_ & _ & Hseq & _ & Hincl & _).
  assert (Hinit' : settledInv pLimit.init).
  { unfold settledInv. simpl. repeat split; try constructor; tauto. }
  pose proof (settledInv_run concurrency events _ s Hinit Hinit' Hrun)
    as (Hnd & Hset & Hsplit & Hlen).
  repeat apply conj.
  - exact Hnd.
  - intros t. split; [ apply Hsplit | ].
    intros [Hr | Hs]; [ now apply Hincl | now apply Hset ].
  - intros t Hr Hs. now destruct (Hset t Hs).
  - apply (f_equal (@List.length nat)) in Hseq.
    rewrite List.length_app, List.length_seq in Hseq. lia.
Qed.

Lemma pLimit_settles_once_witness :
  let s := pLimit.mkState 1 [] [1%nat] [0%nat; 1%nat] [(0%nat, false)] 2 in
  List.NoDup (map fst (pLimit.settled s))
  /\ pLimit.submitted s
     = (List.length (pLimit.queue s) + List.length (pLimit.running s)
        + List.length (pLimit.settled s))%nat.
Proof.
  intros s.
  destruct (pLimit_settles_once 1
              [pLimit.Submit; pLimit.Submit; pLimit.Reject 0] s
              ltac:(lia) eq_refl) as (Hnd & _ & _ & Hcount).
  split; assumption.
Defined.

(** ** Start-time throttle *)

Lemma spaced_weaken (gap gap' : Z) (times : list Z) :
  gap' <= gap -> spaced gap times -> spaced gap' times.
Proof.
  intros Hle. induction times as [ | t times IH]; simpl; [ auto | ].
  intros [Hlater Hsp]. split; [ | now apply IH ].
  eapply List.Forall_impl; [ | exact Hlater ]. simpl. intros. lia.
Qed.

(** In a list that keeps the distance [gap], places [d] apart are
    [d * gap] apart. *)
Lemma spaced_distance (gap : Z) (times : list Z) (d i : nat) (ti tj : Z) :
  0 <= gap -> spaced gap times ->
  nth_error times i = Some ti -> nth_error times (i + d) = Some tj ->
  ti + Z.of_nat d * gap <= tj.
Proof.
  intros Hgap Hsp. revert tj.
  induction d as [ | d IH]; intros tj Hi Hj.
  - rewrite Nat.add_0_r, Hi in Hj. injection Hj as <-. lia.
  - assert (Hsome : nth_error times (i + d) <> None).
    { apply List.nth_error_Some.
      assert (Hlt : (i + S d < List.length times)%nat)
        by (apply List.nth_error_Some; congruence).
      lia. }
    destruct (nth_error times (i + d)) as [tm | ] eqn:Hm; [ | congruence ].
    specialize (IH tm Hi eq_refl).
    pose proof (spaced_nth gap times (i + d) (i + S d) tm tj Hsp
                  ltac:(lia) Hm Hj).
    lia.
Qed.

Section ThrottleMore.

Variable minIntervalMs : Z.

(** The start times never go back, whatever the interval. *)
Lemma ordered_exec (s s' : makeStartThrottler.State)
  (e : makeStartThrottler.Event) :
  throttleInv minIntervalMs s ->
  spaced 0 (map snd (makeStartThrottler.granted s)) ->
  makeStartThrottler.exec minIntervalMs s e = Some s' ->
  spaced 0 (map snd (makeStartThrottler.granted s')).
Proof.
  intros (_ & _ & Hlast & Hclock) Hord.
  destruct e as [ | elapsed jitter late ]; simpl.
  - now intros [= <-].
  - intros Hturn.
    apply turn_start in Hturn
      as (_ & Hnow & _ & caller & rest & _ & _ & _ & ->).
    rewrite List.map_app. simpl. apply spaced_snoc; [ assumption | ].
    destruct (makeStartThrottler.granted s) as [ | g gs] eqn:Hg;
      [ constructor | ].
    specialize (Hclock ltac:(discriminate)).
    eapply List.Forall_impl; [ | exact Hlast ]. simpl. intros t Ht. lia.
Qed.

Lemma ordered_run (events : list makeStartThrottler.Event)
  (s s' : makeStartThrottler.State) :
  throttleInv minIntervalMs s ->
  spaced 0 (map snd (makeStartThrottler.granted s)) ->
  makeStartThrottler.run minIntervalMs events s = Some s' ->
  spaced 0 (map snd (makeStartThrottler.granted s')).
Proof.
  revert s. induction events as [ | e events IH]; intros s Hinv Hord; simpl.
  - now intros [= <-].
  - destruct (makeStartThrottler.exec minIntervalMs s e) as [s1 | ] eqn:He;
      [ | discriminate ].
    apply IH.
    + now apply (throttleInv_exec minIntervalMs s s1 e).
    + now apply (ordered_exec s s1 e).
Qed.

End ThrottleMore.

(** X13.  The throttle caps the rate of request starts: in every run,
    the start times it grants never go back, and with a non-negative
    interval the start granted [d] turns after another one is at least
    [d * minIntervalMs] later. *)
Theorem throttle_rate (minIntervalMs t0 : Z)
  (events : list makeStartThrottler.Event) (s : makeStartThrottler.State) :
  makeStartThrottler.run minIntervalMs events (makeStartThrottler.init t0)
  = Some s ->
  forall (i d : nat) (ti tj : Z),
    nth_error (map snd (makeStartThrottler.granted s)) i = Some ti ->
    nth_error (map snd (makeStartThrottler.granted s)) (i + d) = Some tj ->
    ti <= tj /\ (0 <= minIntervalMs -> ti + Z.of_nat d * minIntervalMs <= tj).
Proof.
  intros Hrun i d ti tj Hi Hj.
  pose proof (throttleInv_init minIntervalMs t0) as Hinit.
  pose proof (throttleInv_run minIntervalMs events _ s Hinit Hrun)
    as (_ & Hsp & _).
  pose proof (ordered_run minIntervalMs events _ s Hinit I Hrun) as Hord.
  split.
  - pose proof (spaced_distance 0 _ d i ti tj ltac:(lia) Hord Hi Hj). lia.
  - intros Hmin.
    exact (spaced_distance minIntervalMs _ d i ti tj Hmin Hsp Hi Hj).
Qed.

Lemma throttle_rate_witness :
  1000 <= 1305 /\ (0 <= 300 -> 1000 + Z.of_nat 1 * 300 <= 1305).
Proof.
  apply (throttle_rate 300 1000
           [makeStartThrottler.Call; makeStartThrottler.Call;
            makeStartThrottler.Turn 0 7 0; makeStartThrottler.Turn 100 3 2]
           (makeStartThrottler.mkState 1305 [] 1305
              [(0%nat, 1000); (1%nat, 1305)] 2)
           eq_refl 0%nat 1%nat 1000 1305 eq_refl eq_refl).
Defined.

(** X14.  A caller is not held longer than needed: a turn that comes
    when the interval since the last start has already passed starts
    at once, without sleeping; otherwise, with a jitter below 50 and a
    timer that is [late] ms late, it starts no later than
    [minIntervalMs + 49 + late] ms after the last start. *)
Theorem throttle_bounded_wait (minIntervalMs : Z) (elapsed jitter late : N)
  (s s' : makeStartThrottler.State) :
  makeStartThrottler.turn minIntervalMs elapsed jitter late s = Some s' ->
  let now := makeStartThrottler.clock s + Z.of_N elapsed in
  (makeStartThrottler.lastStart s + minIntervalMs <= now ->
   makeStartThrottler.lastStart s' = now + Z.of_N late)
  /\ (now < makeStartThrottler.lastStart s + minIntervalMs ->
      (jitter < 50)%N ->
      makeStartThrottler.lastStart s'
      <= makeStartThrottler.lastStart s + minIntervalMs + 49 + Z.of_N late).
Proof.
  unfold makeStartThrottler.turn.
  destruct (makeStartThrottler.chain s); [ discriminate | ].
  intros [= <-]. cbv zeta. throttle_fields. split.
  - intros Hpassed.
    replace (0 <? Z.max 0 _) with false; [ reflexivity | ].
    symmetry. apply Z.ltb_ge. lia.
  - intros Hearly Hjitter.
    replace (0 <? Z.max 0 _) with true by (symmetry; apply Z.ltb_lt; lia).
    lia.
Qed.

Lemma throttle_bounded_wait_witness :
  let s := makeStartThrottler.mkState 1000 [1%nat] 1000 [(0%nat, 1000)] 2 in
  let s' := makeStartThrottler.mkState 1305 [] 1305
              [(0%nat, 1000); (1%nat, 1305)] 2 in
  makeStartThrottler.lastStart s' <= 1000 + 300 + 49 + 2.
Proof.
  intros s s'.
  apply (proj2 (throttle_bounded_wait 300 100 3 2 s s' eq_refl));
    [ simpl; lia | lia ].
Defined.

(** ** Batch scheduler and reporter, further *)

Lemma progressValues_withoutProgress (out : list Output) :
  progressValues (withoutProgress out) = [].
Proof.
  induction out as [ | o out IH]; [ reflexivity | ].
  destruct o; simpl; assumption.
Qed.







Section MainMore.

Variable resolveUrl : Resolver.
Variable cfg : Config.
Variable isTTY : bool.
Variable net : nat -> Oracle.
Variable galaxies : list Galaxy.

Local Abbreviation settleEach :=
  (fold_left (fun st task => settleTask resolveUrl cfg isTTY net galaxies task st)).
Local Abbreviation settleAll := (settleBatch resolveUrl cfg isTTY net galaxies).
Local Abbreviation shown :=
  (fun c : Z => isTTY || (Z.rem c 25 =? 0) || (c =? total galaxies)).






End MainMore.





Section Requests.

Variable resolveUrl : Resolver.
Variable cfg : Config.
Variable net : nat -> Oracle.

Local Abbreviation position :=
  (fun task : nat * Galaxy * (JsValue * string) => fst (fst task)).





End Requests.

Section BatchesMore.

Variable resolveUrl : Resolver.
Variable cfg : Config.
Variable isTTY : bool.
Variable net : nat -> Oracle.
Variable galaxies : list Galaxy.

Local Abbreviation settleAll := (settleBatch resolveUrl cfg isTTY net galaxies).



Hypothesis batch_pos : 0 < BATCH_SIZE cfg.
Hypothesis slots_pos : 0 < MAX_CONCURRENCY cfg.


End BatchesMore.

Section Stuck.

Variable resolveUrl : Resolver.
Variable cfg : Config.
Variable isTTY : bool.
Variable net : nat -> Oracle.
Variable galaxies : list Galaxy.

Hypothesis textual : Forall (fun g => hasTextName g = true) galaxies.




End Stuck.



Section RunsMore.

Variable resolveUrl : Resolver.
Variable cfg : Config.
Variable isTTY : bool.
Variable net : nat -> Oracle.
Variable galaxies : list Galaxy.
Variable fuel : nat.

Hypothesis batch_pos : 0 < BATCH_SIZE cfg.
Hypothesis slots_pos : 0 < MAX_CONCURRENCY cfg.
Hypothesis enough_fuel : (List.length galaxies <= fuel)%nat.

Local Abbreviation settleAll := (settleBatch resolveUrl cfg isTTY net galaxies).



End RunsMore.

Section Prefix.

Variable resolveUrl : Resolver.
Variable cfg : Config.
Variable net : nat -> Oracle.
Variable galaxies : list Galaxy.

Local Abbreviation position :=
  (fun task : nat * Galaxy * (JsValue * string) => fst (fst task)).


End Prefix.













(** ** The iterations of the batch loop *)

Section Plan.

Variable cfg : Config.
Variable galaxies : list Galaxy.

Hypothesis batch_pos : 0 < BATCH_SIZE cfg.

Local Abbreviation size := (Z.to_nat (BATCH_SIZE cfg)).

Lemma batchPlan_spec (fuel : nat) (i : Z) :
  0 <= i -> total galaxies - i <= Z.of_nat fuel ->
  exists plan,
    batchPlan cfg galaxies fuel i = Some plan
    /\ (plan = [] <-> total galaxies <= i)
    /\ concat (map fst plan) = skipn (Z.to_nat i) (indexed galaxies)
    /\ forall (j : nat) (batch : list (nat * Galaxy)) (pause : bool),
         nth_error plan j = Some (batch, pause) ->
         batch = firstn size
                   (skipn (Z.to_nat i + j * size) (indexed galaxies))
         /\ batch <> []
         /\ pause = (S j <? List.length plan)%nat.
Proof.
  revert i.
  assert (Hend : forall i, 0 <= i -> total galaxies <= i ->
            skipn (Z.to_nat i) (indexed galaxies) = []).
  { intros i Hi Hge. apply List.skipn_all2. rewrite length_indexed.
    unfold total in Hge. lia. }
  assert (Hlast : forall i, 0 <= i -> total galaxies <= i ->
            exists plan : list (list (nat * Galaxy) * bool),
              Some [] = Some plan
              /\ (plan = [] <-> total galaxies <= i)
              /\ concat (map fst plan)
                 = skipn (Z.to_nat i) (indexed galaxies)
              /\ forall (j : nat) (batch : list (nat * Galaxy)) (pause : bool),
                   nth_error plan j = Some (batch, pause) ->
                   batch = firstn size
                             (skipn (Z.to_nat i + j * size) (indexed galaxies))
                   /\ batch <> []
                   /\ pause = (S j <? List.length plan)%nat).
  { intros i Hi Hge. exists []. split; [ reflexivity | ].
    split; [ tauto | ]. split; [ now rewrite Hend | ].
    intros [ | j ]; discriminate. }
  induction fuel as [ | fuel IH]; intros i Hi Hfuel; cbn [batchPlan].
  - replace (i <? total galaxies) with false
      by (symmetry; apply Z.ltb_ge; lia).
    apply Hlast; lia.
  - destruct (Z.ltb_spec i (total galaxies)) as [Hlt | Hge];
      [ | now apply Hlast ].
    destruct (IH (i + BATCH_SIZE cfg) ltac:(lia) ltac:(lia))
      as (plan & -> & Hnil & Hconcat & Hnth).
    eexists. split; [ reflexivity | ].
    split; [ split; [ discriminate | lia ] | ].
    rewrite slice_batch by lia.
    split.
    + cbn [map fst concat]. rewrite Hconcat.
      replace (Z.to_nat (i + BATCH_SIZE cfg)) with (size + Z.to_nat i)%nat
        by lia.
      rewrite <- List.skipn_skipn. apply List.firstn_skipn.
    + intros [ | j ] batch pause; cbn [nth_error List.length].
      * intros [= <- <-]. rewrite Nat.add_0_r.
        split; [ reflexivity | ]. split.
        -- intros Hempty. apply (f_equal (@List.length _)) in Hempty.
           rewrite List.length_firstn, List.length_skipn, length_indexed
             in Hempty.
           unfold total in Hlt. simpl in Hempty. lia.
        -- destruct (Z.ltb_spec (i + BATCH_SIZE cfg) (total galaxies))
             as [Hmore | Hdone]; symmetry.
           ++ apply Nat.ltb_lt. destruct plan; [ | simpl; lia ].
              destruct Hnil as [Hnil _]. specialize (Hnil eq_refl). lia.
           ++ apply Nat.ltb_ge. destruct Hnil as [_ Hnil].
              rewrite (Hnil Hdone). simpl. lia.
      * intros Hj. destruct (Hnth j batch pause Hj) as (-> & Hsome & ->).
        split; [ | split; [ assumption | reflexivity ] ].
        f_equal. f_equal. lia.
Qed.

End Plan.

(** The loop of [main] runs the batches of its plan. *)
Lemma batches_runPlan (resolveUrl : Resolver) (cfg : Config) (isTTY : bool)
  (net : nat -> Oracle) (galaxies : list Galaxy) (fuel : nat) :
  forall (i : Z) (st : Run) (plan : list (list (nat * Galaxy) * bool)),
    batchPlan cfg galaxies fuel i = Some plan ->
    batches resolveUrl cfg isTTY net galaxies fuel i st
    = runPlan resolveUrl cfg isTTY net galaxies plan st.
Proof.
  induction fuel as [ | fuel IH]; intros i st plan;
    cbn [batchPlan batches]; destruct (i <? total galaxies);
    try discriminate; try (now intros [= <-]).
  destruct (batchPlan cfg galaxies fuel (i + BATCH_SIZE cfg))
    as [rest | ] eqn:Hrest; [ | discriminate ].
  intros [= <-]. cbn [runPlan].
  destruct (runBatch resolveUrl cfg isTTY net galaxies _ st)
    as [[st' | e st'] | ]; [ | reflexivity | reflexivity ].
  now apply IH.
Qed.

(** X21.  With a positive batch size the loop of [main] cuts the
    records into batches that keep their order and leave none out: the
    j-th batch holds the records at positions [j * BATCH_SIZE] up to
    [(j + 1) * BATCH_SIZE - 1], as far as there are any, no batch is
    empty, the loop runs these batches one after the other, and it
    pauses after every batch but the last. *)
Theorem main_batches (resolveUrl : Resolver) (cfg : Config) (isTTY : bool)
  (net : nat -> Oracle) (galaxies : list Galaxy) (fuel : nat) :
  0 < BATCH_SIZE cfg ->
  (List.length galaxies <= fuel)%nat ->
  exists plan,
    batchPlan cfg galaxies fuel 0 = Some plan
    /\ (forall st : Run,
          batches resolveUrl cfg isTTY net galaxies fuel 0 st
          = runPlan resolveUrl cfg isTTY net galaxies plan st)
    /\ concat (map fst plan) = indexed galaxies
    /\ forall (j : nat) (batch : list (nat * Galaxy)) (pause : bool),
         nth_error plan j = Some (batch, pause) ->
         batch = firstn (Z.to_nat (BATCH_SIZE cfg))
                   (skipn (j * Z.to_nat (BATCH_SIZE cfg)) (indexed galaxies))
         /\ batch <> []
         /\ pause = (S j <? List.length plan)%nat.
Proof.
  intros Hb Hfuel.
  destruct (batchPlan_spec cfg galaxies Hb fuel 0 ltac:(lia))
    as (plan & Hplan & _ & Hconcat & Hnth); [ unfold total; lia | ].
  exists plan. split; [ exact Hplan | ].
  split; [ intros st; now apply batches_runPlan | ].
  split; [ exact Hconcat | exact Hnth ].
Qed.

Lemma main_batches_witness :
  exists plan,
    batchPlan oneByOne threeGalaxies 3 0 = Some plan
    /\ (forall st : Run,
          batches exampleResolver oneByOne false allFound threeGalaxies 3 0 st
          = runPlan exampleResolver oneByOne false allFound threeGalaxies
              plan st)
    /\ concat (map fst plan) = indexed threeGalaxies
    /\ forall (j : nat) (batch : list (nat * Galaxy)) (pause : bool),
         nth_error plan j = Some (batch, pause) ->
         batch = firstn (Z.to_nat (BATCH_SIZE oneByOne))
                   (skipn (j * Z.to_nat (BATCH_SIZE oneByOne))
                      (indexed threeGalaxies))
         /\ batch <> []
         /\ pause = (S j <? List.length plan)%nat.
Proof.
  apply (main_batches exampleResolver oneByOne false allFound
           threeGalaxies 3); [ reflexivity | simpl; lia ].
Defined.
